(** * Vector: a shallow embedding of [vector.hpp]

    The class template [Vector<T>] owns one heap buffer of [m_Capacity]
    slots, of which the first [m_Size] hold elements.  Its nested class
    [Iterator] is a bare pointer into that buffer.

    Modelling decisions.
    - [SizeType] is [std::size_t], an unsigned 64-bit integer: a [Z] in
      [0, 2^64) whose arithmetic is wrapped with [wrap].  [DifferenceType]
      is [std::ptrdiff_t]: a [Z] in [-2^63, 2^63), obtained with [sint].
    - A [Pointer] is a block identifier and an offset counted in elements;
      [nullptr] has no block.
    - The heap maps block identifiers to lists of cells.  A cell is
      [None] while it holds no constructed element (fresh or destructed
      storage) and [Some x] when it holds [x].  Touching a cell that is
      outside its block, or whose block was released, is undefined
      behaviour ([UB]); the contents of a cell are copied as they are.
    - Move construction copies the source cell and leaves the source
      element in the state [moved x], a parameter of the development.
    - [::operator new] always succeeds and returns a fresh block with
      exactly the requested number of cells.  The byte count
      [capacity * sizeof(T)] is not modelled, so [Allocate] stands for
      the source only where that product does not wrap and the request
      is met: the results below call it with the capacity one, with the
      capacity of a vector that exists or twice that, and with zero.
    - A parameter of type [const ValueType&] or [ValueType&&] is a
      [Ref]: either an object of the caller that is no cell of the heap
      ([outside x], a temporary or a variable holding [x]) or the cell
      at an address ([inside p], such as the element [v[i]]).  The
      object is read through the reference at the statement where the
      source reads it, in the heap as it is then.
    - [std::cout << m_Data[i]] records the contents of the cell in
      [cout]; a recorded [None] is a read of a slot that holds no
      element, to which C++ gives no meaning.
    - A method runs on a [State]: the fields of [*this], the heap and the
      values sent to [std::cout].  It ends in [Ok], in [Throw] (a C++
      exception, with the state at the point of the throw) or in [UB]. *)

From stdpp Require Import base numbers option list gmap.
From Stdlib Require Import ZArith Lia.

#[local] Open Scope Z_scope.

(** ** Machine integers *)

Definition SIZE_MAX : Z := 2 ^ 64 - 1.
Definition PTRDIFF_MAX : Z := 2 ^ 63 - 1.

(** Reduction modulo [2^64]: the value of a [SizeType] expression. *)
Definition wrap (z : Z) : Z := z mod 2 ^ 64.

(** Conversion to [DifferenceType] (two's complement). *)
Definition sint (z : Z) : Z := (z + 2 ^ 63) mod 2 ^ 64 - 2 ^ 63.

(** ** Pointers *)

Record Pointer : Type := mkPointer { blk : option nat; off : Z }.

Definition nullptr : Pointer := mkPointer None 0.

(** [p + n], [p - n] *)
Definition ptr_add (p : Pointer) (n : Z) : Pointer := mkPointer (blk p) (off p + n).
Definition ptr_sub (p : Pointer) (n : Z) : Pointer := mkPointer (blk p) (off p - n).

(** [p - q], a [std::ptrdiff_t] *)
Definition ptr_diff (p q : Pointer) : Z := sint (off p - off q).

#[global] Instance Pointer_eq_dec : EqDecision Pointer.
Proof. solve_decision. Defined.

Definition ptr_eqb (p q : Pointer) : bool := bool_decide (p = q).
Definition ptr_ltb (p q : Pointer) : bool := off p <? off q.
Definition ptr_leb (p q : Pointer) : bool := off p <=? off q.

(** ** Exceptions and outcomes *)

Inductive exn : Type :=
| out_of_range      (* std::out_of_range *)
| invalid_argument. (* std::invalid_argument *)

Inductive outcome (S A : Type) : Type :=
| Ok (a : A) (s : S)
| Throw (e : exn) (s : S)
| UB.

Arguments Ok {S A} a s.
Arguments Throw {S A} e s.
Arguments UB {S A}.

(** ** The iterator *)

Module Iterator.

Record Iterator : Type := mkIterator { m_Ptr : Pointer }.

(** [Iterator()] *)
Definition default : Iterator := mkIterator nullptr.

(** [operator=]: returns the new [*this] *)
Definition assign (this other : Iterator) : Iterator := mkIterator (m_Ptr other).

(** [operator*] and [operator->]: a [Reference] is the address of the
    cell it designates. *)
Definition deref (this : Iterator) : Pointer := m_Ptr this.
Definition arrow (this : Iterator) : Pointer := m_Ptr this.

(** [operator++()]: the new [*this], which is also what is returned *)
Definition pre_inc (this : Iterator) : Iterator :=
  mkIterator (ptr_add (m_Ptr this) 1).

(** [operator++(int)]: the new [*this] and the returned iterator.  The
    source makes a copy, advances [*this], and returns [*this]. *)
Definition post_inc (this : Iterator) : Iterator * Iterator :=
  let copy := this in
  let this := pre_inc this in
  (this, this).

(** [operator--()] *)
Definition pre_dec (this : Iterator) : Iterator :=
  mkIterator (ptr_sub (m_Ptr this) 1).

(** [operator--(int)]: the source makes a copy, applies [++] to [*this],
    and returns [*this]. *)
Definition post_dec (this : Iterator) : Iterator * Iterator :=
  let copy := this in
  let this := pre_inc this in
  (this, this).

(** [operator+=], [operator+] *)
Definition add_assign (this : Iterator) (offset : Z) : Iterator :=
  mkIterator (ptr_add (m_Ptr this) offset).
Definition add (this : Iterator) (offset : Z) : Iterator :=
  let copy := this in add_assign copy offset.

(** [operator-=], [operator-(DifferenceType)] *)
Definition sub_assign (this : Iterator) (offset : Z) : Iterator :=
  mkIterator (ptr_sub (m_Ptr this) offset).
Definition sub (this : Iterator) (offset : Z) : Iterator :=
  let copy := this in sub_assign copy offset.

(** [operator-(const Iterator&)] *)
Definition diff (this other : Iterator) : Z := ptr_diff (m_Ptr this) (m_Ptr other).

(** [operator[]] *)
Definition index (this : Iterator) (offset : Z) : Pointer := deref (add this offset).

(** Comparisons *)
Definition eq (this other : Iterator) : bool := ptr_eqb (m_Ptr this) (m_Ptr other).
Definition ne (this other : Iterator) : bool := negb (ptr_eqb (m_Ptr this) (m_Ptr other)).
Definition lt (this other : Iterator) : bool := ptr_ltb (m_Ptr this) (m_Ptr other).
Definition le (this other : Iterator) : bool := ptr_leb (m_Ptr this) (m_Ptr other).
Definition gt (this other : Iterator) : bool := ptr_ltb (m_Ptr other) (m_Ptr this).
Definition ge (this other : Iterator) : bool := ptr_leb (m_Ptr other) (m_Ptr this).

End Iterator.

Abbreviation Iterator := Iterator.Iterator.

(** ** The state monad of the methods *)

Section Vector.

Context {T : Type}.

(** The state in which [T]'s move constructor leaves its argument. *)
Variable moved : T → T.

(** A cell of storage: [None] while no element is constructed in it. *)
#[local] Abbreviation cell := (option T).

Record Vector : Type := mkVector {
  m_Data : Pointer;
  m_Size : Z;
  m_Capacity : Z
}.

Definition INITIAL_CAPACITY : Z := 1.

Record State : Type := mkState {
  this : Vector;
  heap : gmap nat (list cell);
  cout : list cell
}.

Definition M (A : Type) : Type := State → outcome State A.

Definition ret {A} (a : A) : M A := fun s => Ok a s.

Definition bind {A B} (m : M A) (f : A → M B) : M B := fun s =>
  match m s with
  | Ok a s' => f a s'
  | Throw e s' => Throw e s'
  | UB => UB
  end.

Definition throw {A} (e : exn) : M A := fun s => Throw e s.

#[global] Instance M_ret : MRet M := @ret.
#[global] Instance M_bind : MBind M := fun A B f m => bind m f.

(** Reading and writing the fields of [*this]. *)
Definition get {A} (f : Vector → A) : M A := fun s => Ok (f (this s)) s.

Definition set_this (v : Vector) : M unit := fun s =>
  Ok tt (mkState v (heap s) (cout s)).

Definition set_Data (p : Pointer) : M unit :=
  v ← get id; set_this (mkVector p (m_Size v) (m_Capacity v)).
Definition set_Size (n : Z) : M unit :=
  v ← get id; set_this (mkVector (m_Data v) n (m_Capacity v)).
Definition set_Capacity (n : Z) : M unit :=
  v ← get id; set_this (mkVector (m_Data v) (m_Size v) n).

(** ** Memory *)

(** The cell a pointer designates, if it lies inside a live block. *)
Definition cell_at (h : gmap nat (list cell)) (p : Pointer) : option cell :=
  match blk p with
  | Some b =>
      match h !! b with
      | Some l => if 0 <=? off p then l !! Z.to_nat (off p) else None
      | None => None
      end
  | None => None
  end.

(** Reading the cell at [p]. *)
Definition load (p : Pointer) : M cell := fun s =>
  match cell_at (heap s) p with
  | Some c => Ok c s
  | None => UB
  end.

(** Overwriting the cell at [p]. *)
Definition store (p : Pointer) (c : cell) : M unit := fun s =>
  match blk p with
  | Some b =>
      match heap s !! b with
      | Some l =>
          if (0 <=? off p) && (off p <? Z.of_nat (length l))
          then Ok tt (mkState (this s)
                        (<[b := <[Z.to_nat (off p) := c]> l]> (heap s))
                        (cout s))
          else UB
      | None => UB
      end
  | None => UB
  end.

(** [new (p) ValueType(value)] *)
Definition construct (p : Pointer) (value : T) : M unit := store p (Some value).

(** [new (p) ValueType(std::move( *q ))]: the cell at [q] keeps an
    element, in its moved-from state. *)
Definition construct_move (p q : Pointer) : M unit :=
  c ← load q;
  store q (moved <$> c);;
  store p c.

(** [p->~ValueType()] *)
Definition destroy (p : Pointer) : M unit := store p None.

(** [*p = value] *)
Definition assign (p : Pointer) (value : T) : M unit := store p (Some value).

(** ** Reference parameters *)

(** What a parameter [const ValueType& value] or [ValueType&& value] is
    bound to. *)
Inductive Ref : Type :=
| outside (x : T)
| inside (p : Pointer).

(** Reading the object behind a reference.  An object of the caller is
    there whatever the vector does; a cell must lie in a live block and
    hold an element. *)
Definition read (value : Ref) : M T := fun s =>
  match value with
  | outside x => Ok x s
  | inside p =>
      match cell_at (heap s) p with
      | Some (Some x) => Ok x s
      | _ => UB
      end
  end.

(** What a move leaves behind the reference: the moved-from state of
    the element, when the reference is to a cell. *)
Definition leave (value : Ref) (x : T) : M unit :=
  match value with
  | outside _ => ret tt
  | inside p => store p (Some (moved x))
  end.

(** [new (p) ValueType(value)] *)
Definition construct_from (p : Pointer) (value : Ref) : M unit :=
  x ← read value; construct p x.

(** [new (p) ValueType( std::move(value) )] *)
Definition construct_move_from (p : Pointer) (value : Ref) : M unit :=
  x ← read value; leave value x;; construct p x.

(** [*p = value] *)
Definition assign_from (p : Pointer) (value : Ref) : M unit :=
  x ← read value; assign p x.

(** [*p = std::move(value)] *)
Definition assign_move_from (p : Pointer) (value : Ref) : M unit :=
  x ← read value; leave value x;; assign p x.

(** [std::cout << *p << std::endl] *)
Definition emit (c : cell) : M unit := fun s =>
  Ok tt (mkState (this s) (heap s) (cout s ++ [c])).

Definition print (p : Pointer) : M unit :=
  c ← load p; emit c.

(** [Allocate(capacity)]: [::operator new(capacity * sizeof(T))] *)
Definition Allocate (capacity : Z) : M Pointer := fun s =>
  let b := fresh (dom (heap s)) in
  Ok (mkPointer (Some b) 0)
     (mkState (this s)
        (<[b := replicate (Z.to_nat capacity) None]> (heap s))
        (cout s)).

(** [Deallocate()]: [::operator delete(m_Data, m_Capacity * sizeof(T))] *)
Definition release (p : Pointer) : M unit := fun s =>
  match blk p with
  | Some b =>
      if bool_decide (off p = 0 ∧ is_Some (heap s !! b))
      then Ok tt (mkState (this s) (delete b (heap s)) (cout s))
      else UB
  | None => UB
  end.

Definition Deallocate : M unit :=
  p ← get m_Data; release p.

(** ** Loops *)

(** [n] iterations of [body], the index going up from [i]. *)
Fixpoint for_up (n : nat) (i : Z) (body : Z → M unit) : M unit :=
  match n with
  | O => ret tt
  | S n' => body i;; for_up n' (i + 1) body
  end.

(** [n] iterations of [body], the index going down from [i]. *)
Fixpoint for_down (n : nat) (i : Z) (body : Z → M unit) : M unit :=
  match n with
  | O => ret tt
  | S n' => body i;; for_down n' (i - 1) body
  end.

(** [for (SizeType i = lo; i < hi; ++i) body]: the bounds are
    [SizeType] values that the body leaves alone, so the loop runs
    [hi - lo] times (none when [hi <= lo]) and [++i] never wraps. *)
Definition for_lt (lo hi : Z) (body : Z → M unit) : M unit :=
  for_up (Z.to_nat (hi - lo)) lo body.

(** [for (SizeType i = hi; i > lo; --i) body] *)
Definition for_gt (hi lo : Z) (body : Z → M unit) : M unit :=
  for_down (Z.to_nat (hi - lo)) hi body.

(** ** Queries *)

Definition Size (v : Vector) : Z := m_Size v.
Definition Empty (v : Vector) : bool := m_Size v =? 0.
Definition Capacity (v : Vector) : Z := m_Capacity v.

Definition Begin (v : Vector) : Iterator := Iterator.mkIterator (m_Data v).
Definition End (v : Vector) : Iterator :=
  Iterator.mkIterator (ptr_add (m_Data v) (m_Size v)).

(** [operator[]], [Front], [Back]: a [Reference] is the address of a cell. *)
Definition subscript (v : Vector) (index : Z) : Pointer := ptr_add (m_Data v) index.
Definition Front (v : Vector) : Pointer := m_Data v.
Definition Back (v : Vector) : Pointer := ptr_sub (ptr_add (m_Data v) (m_Size v)) 1.

(** [At(index)] *)
Definition At (index : Z) : M Pointer :=
  n ← get m_Size;
  if index >=? n then throw out_of_range
  else get (fun v => subscript v index).

(** ** Storage management *)

(** [Reallocate(newCapacity)] *)
Definition Reallocate (newCapacity : Z) : M unit :=
  n ← get m_Size;
  if newCapacity <? n then throw invalid_argument
  else
    newArray ← Allocate newCapacity;
    for_lt 0 n (fun i =>
      d ← get m_Data;
      construct_move (ptr_add newArray i) (ptr_add d i);;
      destroy (ptr_add d i));;
    Deallocate;;
    set_Data newArray;;
    set_Capacity newCapacity.

(** [Clear()] *)
Definition Clear : M unit :=
  n ← get m_Size;
  for_lt 0 n (fun i => d ← get m_Data; destroy (ptr_add d i));;
  set_Size 0.

(** ** Construction and destruction *)

(** [Vector()] *)
Definition Vector_default : M unit :=
  p ← Allocate INITIAL_CAPACITY;
  set_this (mkVector p 0 INITIAL_CAPACITY).

(** [Vector(count)] *)
Definition Vector_count (count : Z) : M unit :=
  p ← Allocate count;
  set_this (mkVector p 0 count).

(** [Vector(count, value)] *)
Definition Vector_fill (count : Z) (value : T) : M unit :=
  p ← Allocate count;
  set_this (mkVector p count count);;
  for_lt 0 count (fun i => d ← get m_Data; construct (ptr_add d i) value).

(** [new (p) ValueType( *q )] *)
Definition construct_copy (p q : Pointer) : M unit :=
  c ← load q; store p c.

(** [Vector(const Vector& other)] *)
Definition Vector_copy (other : Vector) : M unit :=
  p ← Allocate (m_Capacity other);
  set_this (mkVector p (m_Size other) (m_Capacity other));;
  for_lt 0 (m_Size other) (fun i =>
    d ← get m_Data; construct_copy (ptr_add d i) (subscript other i)).

(** [Vector(Vector&& other)]: the result is what [other] has become. *)
Definition Vector_move (other : Vector) : M Vector :=
  set_this (mkVector (m_Data other) (m_Size other) (m_Capacity other));;
  p ← Allocate INITIAL_CAPACITY;
  ret (mkVector p 0 INITIAL_CAPACITY).

(** [~Vector()] *)
Definition Vector_destroy : M unit := Clear;; Deallocate.

(** [operator=(const Vector& other)], for an [other] that is not
    [*this]; for [other] being [*this] the source returns at once. *)
Definition copy_assign (other : Vector) : M unit :=
  Clear;;
  Deallocate;;
  p ← Allocate (m_Capacity other);
  set_Data p;;
  set_Size (m_Size other);;
  set_Capacity (m_Capacity other);;
  for_lt 0 (m_Size other) (fun i =>
    d ← get m_Data; construct_copy (ptr_add d i) (subscript other i)).

(** [operator=(Vector&& other)], for an [other] that is not [*this];
    the result is what [other] has become. *)
Definition move_assign (other : Vector) : M Vector :=
  Clear;;
  Deallocate;;
  set_Data (m_Data other);;
  set_Size (m_Size other);;
  set_Capacity (m_Capacity other);;
  p ← Allocate INITIAL_CAPACITY;
  ret (mkVector p 0 INITIAL_CAPACITY).

(** ** Insertion and removal at the end *)

(** [PushBack(const ValueType& value)]: [value] is read when the
    element is constructed, after the growth step. *)
Definition PushBack (value : Ref) : M unit :=
  n ← get m_Size;
  c ← get m_Capacity;
  (if n =? c then Reallocate (wrap (c * 2)) else ret tt);;
  d ← get m_Data;
  n ← get m_Size;
  construct_from (ptr_add d n) value;;
  set_Size (wrap (n + 1)).

(** [PushBack(ValueType&& value)]: the same steps, the element being
    move-constructed. *)
Definition PushBack_move (value : Ref) : M unit :=
  n ← get m_Size;
  c ← get m_Capacity;
  (if n =? c then Reallocate (wrap (c * 2)) else ret tt);;
  d ← get m_Data;
  n ← get m_Size;
  construct_move_from (ptr_add d n) value;;
  set_Size (wrap (n + 1)).

(** [PopBack()] *)
Definition PopBack : M unit :=
  n ← get m_Size;
  if n =? 0 then ret tt
  else
    set_Size (wrap (n - 1));;
    d ← get m_Data;
    n ← get m_Size;
    destroy (ptr_add d n).

(** ** Insertion and removal at a position *)

(** [Insert(Iterator position, ConstReference value)].  [index] is a
    [DifferenceType]; in [i > index] it is converted to [SizeType].
    [value] is read by the assignment, after the growth step and the
    shift. *)
Definition Insert (position : Iterator) (value : Ref) : M unit :=
  b ← get Begin;
  let index := Iterator.diff position b in
  n ← get m_Size;
  c ← get m_Capacity;
  (if n =? c then Reallocate (wrap (c * 2)) else ret tt);;
  n ← get m_Size;
  for_gt n (wrap index) (fun i =>
    d ← get m_Data;
    print (ptr_add d i);;
    construct_move (ptr_add d i) (ptr_add d (i - 1)));;
  d ← get m_Data;
  assign_from (ptr_add d index) value;;
  n ← get m_Size;
  set_Size (wrap (n + 1)).

(** [Insert(Iterator position, ValueType&& value)] *)
Definition Insert_move (position : Iterator) (value : Ref) : M unit :=
  b ← get Begin;
  let index := Iterator.diff position b in
  n ← get m_Size;
  c ← get m_Capacity;
  (if n =? c then Reallocate (wrap (c * 2)) else ret tt);;
  n ← get m_Size;
  for_gt n (wrap index) (fun i =>
    d ← get m_Data;
    construct_move (ptr_add d i) (ptr_add d (i - 1)));;
  d ← get m_Data;
  assign_move_from (ptr_add d index) value;;
  n ← get m_Size;
  set_Size (wrap (n + 1)).

(** [Erase(Iterator position)].  [SizeType i = index] converts the
    [DifferenceType] index; [m_Size - 1] is a [SizeType]. *)
Definition Erase (position : Iterator) : M unit :=
  b ← get Begin;
  let index := Iterator.diff position b in
  n ← get m_Size;
  for_lt (wrap index) (wrap (n - 1)) (fun i =>
    d ← get m_Data;
    construct_move (ptr_add d i) (ptr_add d (i + 1)));;
  n ← get m_Size;
  set_Size (wrap (n - 1)).

(** ** Abstraction *)

(** [repr s es]: in state [s] the vector [*this] owns a live block of
    [m_Capacity] cells whose first [m_Size] cells hold the elements
    [es], in this order. *)
Definition repr (s : State) (es : list T) : Prop :=
  ∃ b rest,
    m_Data (this s) = mkPointer (Some b) 0 ∧
    m_Size (this s) = Z.of_nat (length es) ∧
    m_Capacity (this s) = Z.of_nat (length es + length rest) ∧
    m_Capacity (this s) ≤ SIZE_MAX ∧
    heap s !! b = Some ((Some <$> es) ++ rest).

(** The element a [Reference] designates. *)
Definition deref (s : State) (r : Pointer) : option T :=
  mjoin (cell_at (heap s) r).

(** The invariant of the data model: the capacity is never zero and the
    length lies between zero and the capacity. *)
Definition invariant (v : Vector) : Prop :=
  1 ≤ m_Capacity v ∧ 0 ≤ m_Size v ≤ m_Capacity v.

(** The element a reference designates in state [s]. *)
Definition referent (s : State) (value : Ref) : option T :=
  match value with
  | outside x => Some x
  | inside p => deref s p
  end.

(** A reference into the buffer of the vector [v] itself. *)
Definition into_buffer (v : Vector) (value : Ref) : Prop :=
  match value with
  | outside _ => False
  | inside p => blk p = blk (m_Data v)
  end.

(** A sequence of [PushBack] calls, one per element of [xs], each with
    an object of the caller as its argument. *)
Fixpoint push_all (xs : list T) : M unit :=
  match xs with
  | [] => ret tt
  | x :: xs' => PushBack (outside x);; push_all xs'
  end.

(** [c] is the smallest power of two that is at least [n]. *)
Definition is_pow2 (c : Z) : Prop := ∃ k, 0 ≤ k ∧ c = 2 ^ k.

Definition smallest_pow2_ge (n c : Z) : Prop :=
  is_pow2 c ∧ n ≤ c ∧ ∀ c', is_pow2 c' → n ≤ c' → c ≤ c'.





(** ** Parts of the methods, named for the proofs *)

(** The step that [PushBack] and [Insert] start with:
    [if (m_Size == m_Capacity) Reallocate(m_Capacity * 2);] *)
Definition grow_if_full : M unit :=
  n ← get m_Size;
  c ← get m_Capacity;
  if n =? c then Reallocate (wrap (c * 2)) else ret tt.

(** The part of [PushBack] after the growth step, for an object of the
    caller. *)
Definition construct_at_end (value : T) : M unit :=
  d ← get m_Data;
  n ← get m_Size;
  construct (ptr_add d n) value;;
  set_Size (wrap (n + 1)).

(** The part of [Insert] after the growth step, for a given loop body
    and an object of the caller. *)
Definition place (body : Z → M unit) (index : Z) (value : T) : M unit :=
  n ← get m_Size;
  for_gt n (wrap index) body;;
  d ← get m_Data;
  assign (ptr_add d index) value;;
  n ← get m_Size;
  set_Size (wrap (n + 1)).

(** The same parts for any reference.  [make] is the way the element is
    made from the argument: [construct_from] or [construct_move_from]
    in [PushBack], [assign_from] or [assign_move_from] in [Insert]. *)
Definition put_by (make : Pointer → Ref → M unit) (index : Z) (value : Ref) : M unit :=
  d ← get m_Data;
  make (ptr_add d index) value;;
  n ← get m_Size;
  set_Size (wrap (n + 1)).

Definition construct_at_end_by (make : Pointer → Ref → M unit) (value : Ref) : M unit :=
  d ← get m_Data;
  n ← get m_Size;
  make (ptr_add d n) value;;
  set_Size (wrap (n + 1)).

(** The shift of [Insert], for a given loop body. *)
Definition shift (body : Z → M unit) (index : Z) : M unit :=
  n ← get m_Size;
  for_gt n (wrap index) body.


(** What doubling from capacity one maintains: the capacity is a power
    of two, at least the length, and half of it is less than the
    length. *)
Definition doubled (n c : Z) : Prop :=
  ∃ k, 0 ≤ k ∧ c = 2 ^ k ∧ n ≤ c ∧ (k = 0 ∨ 2 ^ (k - 1) < n).


(** ** Ownership of storage *)

(** A specification of a computation: from a state satisfying [P], a
    normal return satisfies [Q], a throw ends in a state satisfying [E];
    nothing is said of a run into undefined behaviour. *)
Definition triple {A} (P : State → Prop) (m : M A)
    (Q : A → State → Prop) (E : State → Prop) : Prop :=
  ∀ s, P s →
    match m s with
    | Ok a s' => Q a s'
    | Throw _ s' => E s'
    | UB => True
    end.

(** A pointer that does not point into a block of [h0]. *)
Definition apart (h0 : gmap nat (list cell)) (p : Pointer) : Prop :=
  ∀ b, blk p = Some b → h0 !! b = None.

(** [owns h0 k s]: the heap of [s] holds every block of [h0] with the
    contents it has in [h0], and [k] blocks more; [*this] does not point
    into [h0]. *)
Definition owns (h0 : gmap nat (list cell)) (k : nat) (s : State) : Prop :=
  h0 ⊆ heap s ∧ size (heap s) = (size h0 + k)%nat ∧ apart h0 (m_Data (this s)).





(** ** What [Insert] sends to [std::cout] *)


(** * Verification *)

(** ** Machine integers *)

Lemma wrap_small z : 0 ≤ z ≤ SIZE_MAX → wrap z = z.
Proof. unfold wrap, SIZE_MAX. intros. apply Z.mod_small. lia. Qed.

Lemma sint_small z : - 2 ^ 63 ≤ z ≤ PTRDIFF_MAX → sint z = z.
Proof. unfold sint, PTRDIFF_MAX. intros. rewrite Z.mod_small; lia. Qed.

Lemma wrap_sint z : 0 ≤ z ≤ SIZE_MAX → wrap (sint z) = z.
Proof.
  unfold wrap, sint, SIZE_MAX. intros.
  rewrite <- (Z.mod_small z (2 ^ 64)) at 2 by lia.
  rewrite <- Zminus_mod_idemp_l, Z.mod_mod by lia.
  rewrite Zminus_mod_idemp_l.
  replace (z + 2 ^ 63 - 2 ^ 63) with z by lia. done.
Qed.

Lemma wrap_double_overflow c :
  2 ^ 63 ≤ c ≤ SIZE_MAX → wrap (c * 2) = c * 2 - 2 ^ 64.
Proof.
  unfold wrap, SIZE_MAX. intros.
  symmetry. apply (Z.mod_unique_pos _ _ 1); lia.
Qed.

(** ** Stepping through the monad *)

Lemma bind_Ok {A B} (m : M A) (f : A → M B) s a s' :
  m s = Ok a s' → (m ≫= f) s = f a s'.
Proof. unfold mbind, M_bind, bind. by intros ->. Qed.

Lemma bind_Throw {A B} (m : M A) (f : A → M B) s e s' :
  m s = Throw e s' → (m ≫= f) s = Throw e s'.
Proof. unfold mbind, M_bind, bind. by intros ->. Qed.

Lemma bind_UB {A B} (m : M A) (f : A → M B) s :
  m s = UB → (m ≫= f) s = UB.
Proof. unfold mbind, M_bind, bind. by intros ->. Qed.

Lemma bind_get {A B} (g : Vector → A) (f : A → M B) s :
  (get g ≫= f) s = f (g (this s)) s.
Proof. done. Qed.

(** Projections of explicit records. *)
Ltac fields := cbn [this heap cout m_Data m_Size m_Capacity id blk off].

(** ** Memory accesses inside a block *)

Lemma load_at v h o b i l c :
  h !! b = Some l → l !! i = Some c →
  load (mkPointer (Some b) (Z.of_nat i)) (mkState v h o) = Ok c (mkState v h o).
Proof.
  intros Hb Hc. unfold load, cell_at. simpl. rewrite Hb.
  destruct (Z.leb_spec 0 (Z.of_nat i)); [|lia].
  by rewrite Nat2Z.id, Hc.
Qed.

Lemma store_at v h o b i l c :
  h !! b = Some l → (i < length l)%nat →
  store (mkPointer (Some b) (Z.of_nat i)) c (mkState v h o)
  = Ok tt (mkState v (<[b := <[i := c]> l]> h) o).
Proof.
  intros Hb Hi. unfold store. simpl. rewrite Hb.
  destruct (Z.leb_spec 0 (Z.of_nat i)); [|lia].
  destruct (Z.ltb_spec (Z.of_nat i) (Z.of_nat (length l))); [|lia].
  simpl. by rewrite Nat2Z.id.
Qed.

Lemma store_outside v h o b i l c :
  h !! b = Some l → Z.of_nat (length l) ≤ i →
  store (mkPointer (Some b) i) c (mkState v h o) = UB.
Proof.
  intros Hb Hi. unfold store. simpl. rewrite Hb.
  destruct (Z.ltb_spec i (Z.of_nat (length l))); [lia|].
  by rewrite andb_false_r.
Qed.

(** Two heaps are equal when they agree at every block. *)
Ltac heap_eq :=
  apply map_eq; intros ?;
  repeat (rewrite ?lookup_insert, ?lookup_delete; case_decide; subst);
  try done; try congruence.

(** ** Lists of cells *)

Lemma insert_middle {A} (pre : list A) x c rest :
  <[length pre := c]> (pre ++ x :: rest) = pre ++ c :: rest.
Proof. by rewrite <- (Nat.add_0_r (length pre)), insert_app_r. Qed.

Lemma lookup_middle {A} (pre : list A) x rest :
  (pre ++ x :: rest) !! length pre = Some x.
Proof. by apply list_lookup_middle. Qed.

Lemma length_middle {A} (pre : list A) x rest :
  (length pre < length (pre ++ x :: rest))%nat.
Proof. rewrite length_app. simpl. lia. Qed.


Lemma ptr_add_block b i :
  ptr_add (mkPointer (Some b) 0) (Z.of_nat i) = mkPointer (Some b) (Z.of_nat i).
Proof. done. Qed.

(** ** The loops *)

(** The relocation loop of [Reallocate]: the cells [xs] of the old block
    are moved to the same positions of the new block and destructed. *)
Lemma relocate_loop v o bo bn xs :
  m_Data v = mkPointer (Some bo) 0 → bo ≠ bn →
  ∀ pre pre' ys post post' h,
    h !! bo = Some (pre ++ xs ++ post) →
    h !! bn = Some (pre' ++ ys ++ post') →
    length pre' = length pre → length ys = length xs →
    for_up (length xs) (Z.of_nat (length pre))
      (fun i =>
         d ← get m_Data;
         construct_move (ptr_add (mkPointer (Some bn) 0) i) (ptr_add d i);;
         destroy (ptr_add d i))
      (mkState v h o)
    = Ok tt (mkState v
               (<[bn := pre' ++ xs ++ post']>
                  (<[bo := pre ++ replicate (length xs) None ++ post]> h)) o).
Proof.
  intros Hd Hne. induction xs as [|x xs IH]; intros pre pre' ys post post' h Hbo Hbn Hl Hl'.
  - destruct ys; [|done]. simpl in *. unfold ret. do 2 f_equal. heap_eq.
  - destruct ys as [|y ys]; [done|]. simpl in Hl'.
    cbn [for_up length]. rewrite bind_Ok with (a := tt)
      (s' := mkState v (<[bo := pre ++ None :: xs ++ post]>
               (<[bn := pre' ++ x :: ys ++ post']> h)) o).
    + replace (Z.of_nat (length pre) + 1) with (Z.of_nat (length (pre ++ [None])))
        by (rewrite length_app; simpl; lia).
      rewrite (IH (pre ++ [None]) (pre' ++ [x]) ys post post').
      * do 2 f_equal. rewrite <- !(assoc_L (++)). simpl. heap_eq.
      * rewrite lookup_insert_eq. by rewrite <- !(assoc_L (++)).
      * rewrite lookup_insert_ne, lookup_insert_eq by done. by rewrite <- !(assoc_L (++)).
      * rewrite !length_app. simpl. lia.
      * lia.
    + rewrite bind_get. cbn [this]. rewrite Hd, !ptr_add_block. unfold construct_move, destroy.
      erewrite bind_Ok; [|erewrite bind_Ok; [|by eapply load_at, lookup_middle; eauto]].
      2:{ erewrite bind_Ok; [|eapply store_at; [done|apply length_middle]].
          eapply store_at.
          - rewrite lookup_insert_ne by done. done.
          - rewrite <- Hl. apply length_middle. }
      erewrite store_at.
      2:{ rewrite lookup_insert_ne, lookup_insert_eq by done. done. }
      2:{ rewrite length_insert. apply length_middle. }
      do 2 f_equal. cbn [app]. rewrite !insert_middle, <- Hl, insert_middle. heap_eq.
Qed.

(** ** [Reallocate] *)

Lemma repr_bounds s es :
  repr s es →
  0 ≤ m_Size (this s) ≤ m_Capacity (this s) ∧ m_Capacity (this s) ≤ SIZE_MAX.
Proof. intros (b & rest & _ & -> & -> & ? & _). lia. Qed.

Lemma Reallocate_throws s newCapacity :
  newCapacity < m_Size (this s) →
  Reallocate newCapacity s = Throw invalid_argument s.
Proof.
  intros Hlt. unfold Reallocate. rewrite bind_get.
  by destruct (Z.ltb_spec newCapacity (m_Size (this s))); [|lia].
Qed.

Lemma Reallocate_ok s es newCapacity :
  repr s es → m_Size (this s) ≤ newCapacity ≤ SIZE_MAX →
  ∃ s', Reallocate newCapacity s = Ok tt s' ∧
        repr s' es ∧
        m_Capacity (this s') = newCapacity ∧
        m_Size (this s') = m_Size (this s) ∧
        cout s' = cout s.
Proof.
  destruct s as [[d n c] h o].
  intros (bo & rest & Hd & Hn & Hc & Hmax & Hbo) Hle. simpl in *. subst d n.
  set (bn := fresh (dom h)).
  assert (Hfresh : h !! bn = None) by apply not_elem_of_dom, is_fresh.
  assert (Hne : bo ≠ bn) by congruence.
  set (extra := (Z.to_nat newCapacity - length es)%nat).
  exists (mkState (mkVector (mkPointer (Some bn) 0) (Z.of_nat (length es)) newCapacity)
            (<[bn := (Some <$> es) ++ replicate extra None]> (delete bo h)) o).
  split; [|split; [|done]].
  - unfold Reallocate. rewrite bind_get. cbn [this m_Size].
    destruct (Z.ltb_spec newCapacity (Z.of_nat (length es))); [lia|]. cbv beta iota.
    erewrite bind_Ok; [|done]. cbn [this heap cout]. fold bn.
    erewrite bind_Ok; cycle 1.
    { unfold for_lt.
      replace (Z.to_nat (Z.of_nat (length es) - 0)) with (length (Some <$> es))
        by (rewrite length_fmap; lia).
      apply (relocate_loop (mkVector (mkPointer (Some bo) 0) (Z.of_nat (length es)) c)
               o bo bn (Some <$> es) eq_refl Hne [] []
               (replicate (length es) None) rest (replicate extra None)).
      - by rewrite lookup_insert_ne.
      - rewrite lookup_insert_eq, <- replicate_add. cbn [app]. do 2 f_equal. unfold extra. lia.
      - done.
      - by rewrite length_replicate, length_fmap. }
    unfold Deallocate. erewrite bind_Ok; cycle 1.
    { rewrite bind_get. unfold release. cbn [this heap cout m_Data blk off].
      rewrite bool_decide_eq_true_2; [done|].
      split; [done|]. rewrite lookup_insert_ne, lookup_insert_eq by done. eauto. }
    unfold set_Data, set_Capacity.
    erewrite bind_Ok; [|by rewrite bind_get].
    rewrite bind_get. unfold set_this. cbn. do 2 f_equal. heap_eq.
  - exists bn, (replicate extra None). cbn.
    rewrite length_replicate, lookup_insert_eq. unfold extra. repeat split; try done; lia.
Qed.

(** ** [At] *)

Lemma At_throws s index :
  m_Size (this s) ≤ index → At index s = Throw out_of_range s.
Proof.
  intros. unfold At. rewrite bind_get.
  by destruct (Z.geb_spec index (m_Size (this s))); [|lia].
Qed.

Lemma At_ok s index :
  index < m_Size (this s) → At index s = Ok (subscript (this s) index) s.
Proof.
  intros. unfold At. rewrite bind_get.
  by destruct (Z.geb_spec index (m_Size (this s))); [lia|].
Qed.

Lemma deref_subscript s es (i : nat) x :
  repr s es → es !! i = Some x →
  deref s (subscript (this s) (Z.of_nat i)) = Some x.
Proof.
  intros (b & rest & Hd & _ & _ & _ & Hb) Hi.
  unfold deref, subscript, cell_at. rewrite Hd, ptr_add_block. cbn [blk off].
  rewrite Hb. destruct (Z.leb_spec 0 (Z.of_nat i)); [|lia].
  rewrite Nat2Z.id.
  erewrite lookup_app_l_Some; [done|]. by rewrite list_lookup_fmap, Hi.
Qed.

(** ** The growth step *)

Lemma grow_if_full_not_full s :
  m_Size (this s) ≠ m_Capacity (this s) → grow_if_full s = Ok tt s.
Proof.
  intros. unfold grow_if_full. rewrite !bind_get.
  by destruct (Z.eqb_spec (m_Size (this s)) (m_Capacity (this s))).
Qed.

Lemma grow_if_full_doubles s es :
  repr s es → m_Size (this s) = m_Capacity (this s) →
  2 * m_Capacity (this s) ≤ SIZE_MAX →
  ∃ s', grow_if_full s = Ok tt s' ∧
        repr s' es ∧
        m_Capacity (this s') = 2 * m_Capacity (this s) ∧
        m_Size (this s') = m_Size (this s) ∧
        cout s' = cout s.
Proof.
  intros Hr Heq Hmax. pose proof (repr_bounds _ _ Hr) as Hb.
  destruct (Reallocate_ok s es (2 * m_Capacity (this s)) Hr) as (s' & Hs' & ?); [lia|].
  exists s'. split; [|done].
  unfold grow_if_full. rewrite !bind_get.
  destruct (Z.eqb_spec (m_Size (this s)) (m_Capacity (this s))); [|done].
  rewrite wrap_small by lia. by rewrite Z.mul_comm.
Qed.

Lemma grow_if_full_throws s es :
  repr s es → m_Size (this s) = m_Capacity (this s) →
  2 ^ 63 ≤ m_Capacity (this s) →
  grow_if_full s = Throw invalid_argument s.
Proof.
  intros Hr Heq Hbig. pose proof (repr_bounds _ _ Hr) as Hb.
  unfold grow_if_full. rewrite !bind_get.
  destruct (Z.eqb_spec (m_Size (this s)) (m_Capacity (this s))); [|done].
  apply Reallocate_throws. rewrite wrap_double_overflow by lia.
  unfold SIZE_MAX in *. lia.
Qed.

(** ** [PushBack] *)

Lemma construct_at_end_ok s es value :
  repr s es → m_Size (this s) < m_Capacity (this s) →
  ∃ s', construct_at_end value s = Ok tt s' ∧
        repr s' (es ++ [value]) ∧
        m_Capacity (this s') = m_Capacity (this s) ∧
        cout s' = cout s.
Proof.
  destruct s as [[d n c] h o].
  intros (b & rest & Hd & Hn & Hc & Hmax & Hb) Hlt. simpl in *. subst d n.
  destruct rest as [|r rest]; [simpl in Hc; lia|].
  exists (mkState (mkVector (mkPointer (Some b) 0) (Z.of_nat (length es) + 1) c)
            (<[b := (Some <$> es) ++ Some value :: rest]> h) o).
  split; [|split; [|done]].
  - unfold construct_at_end, construct. rewrite !bind_get. cbn [this m_Data m_Size].
    rewrite ptr_add_block.
    erewrite bind_Ok; cycle 1.
    { rewrite <- (length_fmap Some es). eapply store_at; [done|apply length_middle]. }
    rewrite <- (length_fmap Some es), insert_middle, length_fmap.
    unfold set_Size. rewrite bind_get. unfold set_this. cbn.
    rewrite wrap_small by lia. done.
  - exists b, rest. cbn. rewrite lookup_insert_eq, fmap_app, <- (assoc_L (++)), length_app.
    simpl in *. repeat split; try done; lia.
Qed.

Lemma construct_at_end_outside s es value :
  repr s es → m_Size (this s) = m_Capacity (this s) →
  construct_at_end value s = UB.
Proof.
  destruct s as [[d n c] h o].
  intros (b & rest & Hd & Hn & Hc & Hmax & Hb) Heq. simpl in *. subst d n.
  unfold construct_at_end, construct. rewrite !bind_get. cbn [this m_Data m_Size].
  rewrite ptr_add_block. apply bind_UB. eapply store_outside; [done|].
  rewrite length_app, length_fmap. lia.
Qed.

Lemma PushBack_unfold value s :
  PushBack (outside value) s = (grow_if_full;; construct_at_end value) s.
Proof. done. Qed.


Lemma PushBack_ok s es value :
  repr s es → 1 ≤ m_Capacity (this s) →
  m_Size (this s) < m_Capacity (this s) ∨ 2 * m_Capacity (this s) ≤ SIZE_MAX →
  ∃ s', PushBack (outside value) s = Ok tt s' ∧
        repr s' (es ++ [value]) ∧
        m_Capacity (this s') =
          (if m_Size (this s) =? m_Capacity (this s)
           then 2 * m_Capacity (this s) else m_Capacity (this s)) ∧
        cout s' = cout s.
Proof.
  intros Hr Hcap Hfit. pose proof (repr_bounds _ _ Hr) as Hb.
  rewrite PushBack_unfold.
  destruct (Z.eqb_spec (m_Size (this s)) (m_Capacity (this s))) as [Heq|Hne].
  - destruct (grow_if_full_doubles s es Hr Heq) as (s1 & Hs1 & Hr1 & Hc1 & Hn1 & Ho1); [lia|].
    destruct (construct_at_end_ok s1 es value Hr1) as (s2 & Hs2 & Hr2 & Hc2 & Ho2); [lia|].
    exists s2. rewrite (bind_Ok _ _ _ _ _ Hs1). repeat split; try done; congruence.
  - destruct (construct_at_end_ok s es value Hr) as (s2 & Hs2 & Hr2 & Hc2 & Ho2); [lia|].
    exists s2. rewrite (bind_Ok _ _ _ _ _ (grow_if_full_not_full s Hne)). done.
Qed.

Lemma PushBack_throws s es value :
  repr s es → m_Size (this s) = m_Capacity (this s) →
  2 ^ 63 ≤ m_Capacity (this s) →
  PushBack (outside value) s = Throw invalid_argument s.
Proof.
  intros Hr Heq Hbig. rewrite PushBack_unfold.
  apply bind_Throw. by eapply grow_if_full_throws.
Qed.

(** With no capacity at all the doubled capacity is still zero, and the
    element is constructed past the end of the block. *)
Lemma PushBack_no_capacity s value :
  repr s [] → m_Capacity (this s) = 0 → PushBack (outside value) s = UB.
Proof.
  intros Hr Hcap. pose proof (repr_bounds _ _ Hr) as Hb.
  rewrite PushBack_unfold.
  destruct (grow_if_full_doubles s [] Hr) as (s1 & Hs1 & Hr1 & Hc1 & Hn1 & Ho1);
    [lia|unfold SIZE_MAX; lia|].
  rewrite (bind_Ok _ _ _ _ _ Hs1).
  eapply construct_at_end_outside; [done|lia].
Qed.

(** ** [PopBack] *)

Lemma PopBack_empty s : m_Size (this s) = 0 → PopBack s = Ok tt s.
Proof. intros H. unfold PopBack. rewrite bind_get, H. done. Qed.

Lemma PopBack_last s es x :
  repr s (es ++ [x]) →
  ∃ s', PopBack s = Ok tt s' ∧
        repr s' es ∧
        m_Capacity (this s') = m_Capacity (this s) ∧
        cout s' = cout s.
Proof.
  destruct s as [[d n c] h o].
  intros (b & rest & Hd & Hn & Hc & Hmax & Hb). simpl in *. subst d n.
  rewrite length_app in *. simpl in *.
  rewrite fmap_app, <- (assoc_L (++)) in Hb. simpl in Hb.
  exists (mkState (mkVector (mkPointer (Some b) 0) (Z.of_nat (length es)) c)
            (<[b := (Some <$> es) ++ None :: rest]> h) o).
  split; [|split; [|done]].
  - unfold PopBack. rewrite bind_get. cbn [this m_Size].
    destruct (Z.eqb_spec (Z.of_nat (length es + 1)) 0); [lia|].
    unfold set_Size. erewrite bind_Ok; [|by rewrite bind_get].
    rewrite !bind_get. fields.
    rewrite wrap_small by lia.
    replace (Z.of_nat (length es + 1) - 1) with (Z.of_nat (length es)) by lia.
    rewrite ptr_add_block. unfold destroy.
    rewrite <- (length_fmap Some es).
    erewrite store_at; [|done|apply length_middle].
    by rewrite insert_middle.
  - exists b, (None :: rest). cbn. rewrite lookup_insert_eq.
    repeat split; try done; lia.
Qed.


(** ** The shifting loops of [Insert] and [Erase] *)







(** One iteration of a shift toward the start: the cell after index [i]
    is moved into the cell at index [i]. *)
Lemma move_down_step v h o b pre x c post :
  m_Data v = mkPointer (Some b) 0 →
  h !! b = Some (pre ++ c :: x :: post) →
  (d ← get m_Data;
   construct_move (ptr_add d (Z.of_nat (length pre)))
                  (ptr_add d (Z.of_nat (length pre) + 1)))
    (mkState v h o)
  = Ok tt (mkState v (<[b := pre ++ x :: (moved <$> x) :: post]> h) o).
Proof.
  intros Hd Hb. rewrite bind_get. fields. rewrite Hd.
  replace (Z.of_nat (length pre) + 1) with (Z.of_nat (length (pre ++ [c])))
    by (rewrite length_app; simpl; lia).
  rewrite !ptr_add_block. unfold construct_move.
  assert (Hb' : h !! b = Some ((pre ++ [c]) ++ x :: post))
    by by rewrite <- (assoc_L (++)).
  erewrite bind_Ok; [|by eapply load_at, lookup_middle].
  erewrite bind_Ok; [|by eapply store_at; [|apply length_middle]].
  rewrite insert_middle, <- (assoc_L (++)). simpl.
  erewrite store_at; [|by apply lookup_insert_eq|apply length_middle].
  rewrite insert_middle. do 2 f_equal. heap_eq.
Qed.

Lemma shift_down_loop v b xs :
  m_Data v = mkPointer (Some b) 0 →
  ∀ pre c post h o,
    h !! b = Some (pre ++ c :: xs ++ post) →
    ∃ c',
      for_up (length xs) (Z.of_nat (length pre))
        (fun i => d ← get m_Data; construct_move (ptr_add d i) (ptr_add d (i + 1)))
        (mkState v h o)
      = Ok tt (mkState v (<[b := pre ++ xs ++ c' :: post]> h) o).
Proof.
  intros Hd. induction xs as [|x xs IH]; intros pre c post h o Hb.
  - exists c. simpl. unfold ret. do 2 f_equal. simpl in Hb. heap_eq.
  - cbn [length for_up]. simpl in Hb.
    rewrite (bind_Ok _ _ _ _ _ (move_down_step v h o b pre x c (xs ++ post) Hd Hb)).
    replace (Z.of_nat (length pre) + 1) with (Z.of_nat (length (pre ++ [x])))
      by (rewrite length_app; simpl; lia).
    destruct (IH (pre ++ [x]) (moved <$> x) post
                (<[b := pre ++ x :: (moved <$> x) :: xs ++ post]> h) o) as (c' & Hs).
    { rewrite lookup_insert_eq. by rewrite <- (assoc_L (++)). }
    exists c'. rewrite Hs. do 2 f_equal. rewrite <- !(assoc_L (++)). simpl. heap_eq.
Qed.

(** ** [Insert] *)







(** ** [Erase] *)

Lemma diff_add_Begin_sint v k :
  Iterator.diff (Iterator.add (Begin v) k) (Begin v) = sint k.
Proof.
  unfold Iterator.diff, Iterator.add, Iterator.add_assign, Begin, ptr_diff.
  simpl. f_equal. lia.
Qed.

Lemma Erase_ok s es (k : nat) :
  repr s es → (k < length es)%nat →
  ∃ s', Erase (Iterator.add (Begin (this s)) (Z.of_nat k)) s = Ok tt s' ∧
        repr s' (take k es ++ drop (S k) es) ∧
        m_Capacity (this s') = m_Capacity (this s) ∧
        cout s' = cout s.
Proof.
  destruct s as [[d n c] h o].
  intros (b & rest & Hd & Hn & Hc & Hmax & Hb) Hk. simpl in *. subst d n.
  destruct (lookup_lt_is_Some_2 es k Hk) as [e He].
  rewrite <- (take_drop_middle es k e He), fmap_app, fmap_cons, <- (assoc_L (++)) in Hb.
  simpl in Hb.
  pose (v := mkVector (mkPointer (Some b) 0) (Z.of_nat (length es)) c).
  destruct (shift_down_loop v b (Some <$> drop (S k) es) eq_refl
              (Some <$> take k es) (Some e) rest h o Hb) as (c' & Hloop).
  rewrite !length_fmap, length_take_le, length_drop in Hloop by lia.
  unfold v in Hloop. clear v.
  exists (mkState (mkVector (mkPointer (Some b) 0) (Z.of_nat (length es) - 1) c)
            (<[b := (Some <$> take k es) ++ (Some <$> drop (S k) es) ++ c' :: rest]> h) o).
  split; [|split; [|done]].
  - unfold Erase. rewrite bind_get, diff_add_Begin_sint, bind_get. fields.
    unfold for_lt.
    rewrite wrap_sint by (unfold SIZE_MAX in *; lia).
    rewrite !wrap_small by (unfold SIZE_MAX in *; lia).
    replace (Z.to_nat (Z.of_nat (length es) - 1 - Z.of_nat k))
      with (length es - S k)%nat by lia.
    erewrite bind_Ok; [|exact Hloop].
    unfold set_Size. rewrite !bind_get. unfold set_this. fields.
    rewrite wrap_small by (unfold SIZE_MAX in *; lia). done.
  - exists b, (c' :: rest). cbn. rewrite lookup_insert_eq.
    rewrite fmap_app, <- (assoc_L (++)).
    rewrite length_app, length_take_le, length_drop by lia.
    simpl. repeat split; try done; lia.
Qed.

(** ** [Clear] *)

(** A loop that stores the same contents in a run of cells: the
    destruction loop of [Clear] and the construction loop of
    [Vector(count, value)]. *)
Lemma store_loop v o b (c : cell) xs :
  m_Data v = mkPointer (Some b) 0 →
  ∀ pre post h,
    h !! b = Some (pre ++ xs ++ post) →
    for_up (length xs) (Z.of_nat (length pre))
      (fun i => d ← get m_Data; store (ptr_add d i) c)
      (mkState v h o)
    = Ok tt (mkState v (<[b := pre ++ replicate (length xs) c ++ post]> h) o).
Proof.
  intros Hd. induction xs as [|x xs IH]; intros pre post h Hb.
  - simpl in *. unfold ret. do 2 f_equal. heap_eq.
  - cbn [length for_up]. simpl in Hb.
    erewrite bind_Ok; cycle 1.
    { rewrite bind_get. fields. rewrite Hd, ptr_add_block.
      eapply store_at; [done|apply length_middle]. }
    rewrite insert_middle.
    replace (Z.of_nat (length pre) + 1) with (Z.of_nat (length (pre ++ [c])))
      by (rewrite length_app; simpl; lia).
    rewrite (IH (pre ++ [c]) post).
    + do 2 f_equal. rewrite <- !(assoc_L (++)). simpl. heap_eq.
    + rewrite lookup_insert_eq. by rewrite <- (assoc_L (++)).
Qed.

Lemma Clear_ok s es :
  repr s es →
  ∃ s', Clear s = Ok tt s' ∧
        repr s' [] ∧
        m_Data (this s') = m_Data (this s) ∧
        m_Capacity (this s') = m_Capacity (this s) ∧
        cout s' = cout s ∧
        ∀ b', blk (m_Data (this s)) ≠ Some b' → heap s' !! b' = heap s !! b'.
Proof.
  destruct s as [[d n c] h o].
  intros (b & rest & Hd & Hn & Hc & Hmax & Hb). simpl in *. subst d n.
  exists (mkState (mkVector (mkPointer (Some b) 0) 0 c)
            (<[b := replicate (length es) None ++ rest]> h) o).
  split; [|split; [|split; [done|split; [done|split; [done|]]]]].
  - unfold Clear. rewrite bind_get. fields. unfold for_lt.
    replace (Z.to_nat (Z.of_nat (length es) - 0)) with (length (Some <$> es))
      by (rewrite length_fmap; lia).
    erewrite bind_Ok; cycle 1.
    { by apply (store_loop (mkVector (mkPointer (Some b) 0) (Z.of_nat (length es)) c)
                 o b None (Some <$> es) eq_refl [] rest h). }
    unfold set_Size. rewrite bind_get. unfold set_this. fields.
    by rewrite length_fmap.
  - exists b, (replicate (length es) None ++ rest). cbn.
    rewrite lookup_insert_eq, length_app, length_replicate.
    repeat split; try done; lia.
  - intros b' Hb'. cbn in *. rewrite lookup_insert_ne; [done|]. by intros ->.
Qed.

(** ** [Deallocate] *)

Lemma Deallocate_ok s es :
  repr s es →
  ∃ b, m_Data (this s) = mkPointer (Some b) 0 ∧
       Deallocate s = Ok tt (mkState (this s) (delete b (heap s)) (cout s)).
Proof.
  intros (b & rest & Hd & _ & _ & _ & Hb). exists b. split; [done|].
  unfold Deallocate. rewrite bind_get, Hd. unfold release. fields.
  rewrite bool_decide_eq_true_2; [done|]. split; [done|]. by rewrite Hb.
Qed.

(** ** Constructors *)

Lemma Allocate_fresh s capacity :
  let b := fresh (dom (heap s)) in
  heap s !! b = None ∧
  Allocate capacity s
  = Ok (mkPointer (Some b) 0)
      (mkState (this s) (<[b := replicate (Z.to_nat capacity) None]> (heap s)) (cout s)).
Proof. split; [apply not_elem_of_dom, is_fresh|done]. Qed.

(** [Vector(count)] for the counts zero and one. *)
Lemma Vector_count_ok s0 count :
  0 ≤ count ≤ 1 →
  ∃ s, Vector_count count s0 = Ok tt s ∧
       repr s [] ∧ m_Size (this s) = 0 ∧ m_Capacity (this s) = count.
Proof.
  intros Hc. destruct s0 as [v0 h o].
  exists (mkState (mkVector (mkPointer (Some (fresh (dom h))) 0) 0 count)
            (<[fresh (dom h) := replicate (Z.to_nat count) None]> h) o).
  split; [done|]. split; [|done].
  eexists _, _. cbn. rewrite lookup_insert_eq, length_replicate.
  repeat split; try done; unfold SIZE_MAX; lia.
Qed.

Lemma Vector_default_ok s0 :
  ∃ s, Vector_default s0 = Ok tt s ∧
       repr s [] ∧ m_Size (this s) = 0 ∧ m_Capacity (this s) = 1.
Proof. apply (Vector_count_ok s0 1). lia. Qed.

(** The copy loop of the copy constructor and of copy assignment. *)
Lemma copy_loop v o bo bn xs :
  m_Data v = mkPointer (Some bn) 0 → bo ≠ bn →
  ∀ pre pre' ys post post' h,
    h !! bo = Some (pre ++ xs ++ post) →
    h !! bn = Some (pre' ++ ys ++ post') →
    length pre' = length pre → length ys = length xs →
    for_up (length xs) (Z.of_nat (length pre))
      (fun i =>
         d ← get m_Data;
         construct_copy (ptr_add d i) (ptr_add (mkPointer (Some bo) 0) i))
      (mkState v h o)
    = Ok tt (mkState v (<[bn := pre' ++ xs ++ post']> h) o).
Proof.
  intros Hd Hne. induction xs as [|x xs IH]; intros pre pre' ys post post' h Hbo Hbn Hl Hl'.
  - destruct ys; [|done]. simpl in *. unfold ret. do 2 f_equal. heap_eq.
  - destruct ys as [|y ys]; [done|]. simpl in Hl', Hbo, Hbn. cbn [for_up length].
    erewrite bind_Ok; cycle 1.
    { rewrite bind_get. fields. rewrite Hd, !ptr_add_block. unfold construct_copy.
      erewrite bind_Ok; [|by eapply load_at, lookup_middle].
      rewrite <- Hl. eapply store_at; [done|apply length_middle]. }
    rewrite insert_middle.
    replace (Z.of_nat (length pre) + 1) with (Z.of_nat (length (pre ++ [x])))
      by (rewrite length_app; simpl; lia).
    rewrite (IH (pre ++ [x]) (pre' ++ [x]) ys post post').
    + do 2 f_equal. rewrite <- !(assoc_L (++)). simpl. heap_eq.
    + rewrite lookup_insert_ne by done. by rewrite <- (assoc_L (++)).
    + rewrite lookup_insert_eq. by rewrite <- !(assoc_L (++)).
    + rewrite !length_app. simpl. lia.
    + lia.
Qed.

Lemma Vector_copy_ok s0 other o' es :
  repr (mkState other (heap s0) o') es →
  ∃ s, Vector_copy other s0 = Ok tt s ∧
       repr s es ∧
       m_Size (this s) = m_Size other ∧ m_Capacity (this s) = m_Capacity other ∧
       repr (mkState other (heap s) o') es.
Proof.
  destruct s0 as [v0 h o]. destruct other as [d n c].
  intros (bo & rest & Hd & Hn & Hc & Hmax & Hbo). simpl in *. subst d n.
  set (bn := fresh (dom h)).
  assert (Hfresh : h !! bn = None) by apply not_elem_of_dom, is_fresh.
  assert (Hne : bo ≠ bn) by congruence.
  exists (mkState (mkVector (mkPointer (Some bn) 0) (Z.of_nat (length es)) c)
            (<[bn := (Some <$> es) ++ replicate (length rest) None]> h) o).
  split; [|split; [|split; [done|split; [done|]]]].
  - unfold Vector_copy. erewrite bind_Ok; [|done]. fields. fold bn.
    erewrite bind_Ok; [|done]. unfold set_this, for_lt, subscript. fields.
    replace (Z.to_nat (Z.of_nat (length es) - 0)) with (length (Some <$> es))
      by (rewrite length_fmap; lia).
    erewrite (copy_loop (mkVector (mkPointer (Some bn) 0) (Z.of_nat (length es)) c)
                o bo bn (Some <$> es) eq_refl Hne [] []
                (replicate (length es) None) rest (replicate (length rest) None)).
    + do 2 f_equal. heap_eq.
    + by rewrite lookup_insert_ne.
    + rewrite lookup_insert_eq. cbn [app]. rewrite <- replicate_add.
      do 2 f_equal. lia.
    + done.
    + by rewrite length_replicate, length_fmap.
  - exists bn, (replicate (length rest) None). cbn.
    rewrite lookup_insert_eq, length_replicate. repeat split; try done; lia.
  - exists bo, rest. cbn. rewrite lookup_insert_ne by done. done.
Qed.

Lemma Vector_move_ok s0 other o' es :
  repr (mkState other (heap s0) o') es →
  ∃ s other',
    Vector_move other s0 = Ok other' s ∧
    this s = other ∧ repr s es ∧
    m_Size other' = 0 ∧ m_Capacity other' = 1 ∧
    repr (mkState other' (heap s) o') [].
Proof.
  destruct s0 as [v0 h o]. destruct other as [d n c].
  intros (bo & rest & Hd & Hn & Hc & Hmax & Hbo). simpl in *. subst d n.
  set (bn := fresh (dom h)).
  assert (Hfresh : h !! bn = None) by apply not_elem_of_dom, is_fresh.
  assert (Hne : bo ≠ bn) by congruence.
  exists (mkState (mkVector (mkPointer (Some bo) 0) (Z.of_nat (length es)) c)
            (<[bn := [None]]> h) o),
         (mkVector (mkPointer (Some bn) 0) 0 1).
  split; [done|]. split; [done|]. split; [|split; [done|split; [done|]]].
  - exists bo, rest. cbn. rewrite lookup_insert_ne by done. done.
  - exists bn, [None]. cbn. rewrite lookup_insert_eq. unfold SIZE_MAX. done.
Qed.

(** ** Assignment *)

Lemma set_fields_eq p n c s :
  (set_Data p;; set_Size n;; set_Capacity c) s = set_this (mkVector p n c) s.
Proof. done. Qed.

Lemma copy_assign_unfold other s :
  copy_assign other s = (Clear;; Deallocate;; Vector_copy other) s.
Proof.
  unfold copy_assign, Vector_copy, mbind, M_bind, bind.
  destruct (Clear s) as [[] s1|e s1|]; [|done..].
  destruct (Deallocate s1) as [[] s2|e s2|]; [|done..]. done.
Qed.

Lemma move_assign_unfold other s :
  move_assign other s = (Clear;; Deallocate;; Vector_move other) s.
Proof.
  unfold move_assign, Vector_move, mbind, M_bind, bind.
  destruct (Clear s) as [[] s1|e s1|]; [|done..].
  destruct (Deallocate s1) as [[] s2|e s2|]; [|done..]. done.
Qed.

(** Destroying the contents of [*this] leaves another vector's block
    alone. *)
Lemma Clear_Deallocate_frame s es other o' es' :
  repr s es → repr (mkState other (heap s) o') es' →
  blk (m_Data other) ≠ blk (m_Data (this s)) →
  ∃ s1 s2, Clear s = Ok tt s1 ∧ Deallocate s1 = Ok tt s2 ∧
           repr (mkState other (heap s2) o') es'.
Proof.
  intros Hr Ho Hne.
  destruct (Clear_ok s es Hr) as (s1 & Hs1 & Hr1 & Hd1 & _ & _ & Hframe).
  destruct (Deallocate_ok s1 [] Hr1) as (b & Hb & Hs2).
  eexists s1, _. split; [done|]. split; [exact Hs2|].
  destruct Ho as (bx & rest & Hdx & Hnx & Hcx & Hmx & Hbx). simpl in *.
  rewrite Hdx in Hne. rewrite <- Hd1, Hb in Hne. simpl in Hne.
  exists bx, rest. cbn. repeat split; try done.
  rewrite lookup_delete_ne by congruence.
  rewrite Hframe; [done|]. rewrite <- Hd1, Hb. simpl. congruence.
Qed.

Lemma copy_assign_ok s es other o' es' :
  repr s es → repr (mkState other (heap s) o') es' →
  blk (m_Data other) ≠ blk (m_Data (this s)) →
  ∃ s', copy_assign other s = Ok tt s' ∧
        repr s' es' ∧
        m_Size (this s') = m_Size other ∧ m_Capacity (this s') = m_Capacity other ∧
        repr (mkState other (heap s') o') es'.
Proof.
  intros Hr Ho Hne.
  destruct (Clear_Deallocate_frame s es other o' es' Hr Ho Hne)
    as (s1 & s2 & Hs1 & Hs2 & Ho2).
  destruct (Vector_copy_ok s2 other o' es' Ho2) as (s3 & Hs3 & ?).
  exists s3. split; [|done].
  by rewrite copy_assign_unfold, (bind_Ok _ _ _ _ _ Hs1), (bind_Ok _ _ _ _ _ Hs2).
Qed.


(** ** The state after a growth step *)

Lemma Reallocate_exact b (n c : Z) h o es rest newCapacity :
  n = Z.of_nat (length es) → h !! b = Some ((Some <$> es) ++ rest) →
  n ≤ newCapacity →
  Reallocate newCapacity (mkState (mkVector (mkPointer (Some b) 0) n c) h o)
  = Ok tt (mkState (mkVector (mkPointer (Some (fresh (dom h))) 0) n newCapacity)
             (<[fresh (dom h) :=
                  (Some <$> es) ++ replicate (Z.to_nat newCapacity - length es) None]>
                (delete b h)) o).
Proof.
  intros -> Hb Hle.
  set (bn := fresh (dom h)).
  assert (Hfresh : h !! bn = None) by apply not_elem_of_dom, is_fresh.
  assert (Hne : b ≠ bn) by congruence.
  set (extra := (Z.to_nat newCapacity - length es)%nat).
  unfold Reallocate. rewrite bind_get. cbn [this m_Size].
  destruct (Z.ltb_spec newCapacity (Z.of_nat (length es))); [lia|]. cbv beta iota.
  erewrite bind_Ok; [|done]. cbn [this heap cout]. fold bn.
  erewrite bind_Ok; cycle 1.
  { unfold for_lt.
    replace (Z.to_nat (Z.of_nat (length es) - 0)) with (length (Some <$> es))
      by (rewrite length_fmap; lia).
    apply (relocate_loop (mkVector (mkPointer (Some b) 0) (Z.of_nat (length es)) c)
             o b bn (Some <$> es) eq_refl Hne [] []
             (replicate (length es) None) rest (replicate extra None)).
    - by rewrite lookup_insert_ne.
    - rewrite lookup_insert_eq, <- replicate_add. cbn [app]. do 2 f_equal.
      unfold extra. lia.
    - done.
    - by rewrite length_replicate, length_fmap. }
  unfold Deallocate. erewrite bind_Ok; cycle 1.
  { rewrite bind_get. unfold release. cbn [this heap cout m_Data blk off].
    rewrite bool_decide_eq_true_2; [done|].
    split; [done|]. rewrite lookup_insert_ne, lookup_insert_eq by done. eauto. }
  unfold set_Data, set_Capacity.
  erewrite bind_Ok; [|by rewrite bind_get].
  rewrite bind_get. unfold set_this. cbn. do 2 f_equal. heap_eq.
Qed.

Lemma construct_at_end_exact b (n c : Z) h o cells r rest value :
  n = Z.of_nat (length cells) → n + 1 ≤ SIZE_MAX →
  h !! b = Some (cells ++ r :: rest) →
  construct_at_end value (mkState (mkVector (mkPointer (Some b) 0) n c) h o)
  = Ok tt (mkState (mkVector (mkPointer (Some b) 0) (n + 1) c)
             (<[b := cells ++ Some value :: rest]> h) o).
Proof.
  intros -> Hmax Hb.
  unfold construct_at_end, construct. rewrite !bind_get. cbn [this m_Data m_Size].
  rewrite ptr_add_block.
  erewrite bind_Ok; [|eapply store_at; [done|apply length_middle]].
  rewrite insert_middle.
  unfold set_Size. rewrite bind_get. unfold set_this. fields.
  rewrite wrap_small by lia. done.
Qed.

(** * The claims *)

(** ** Cursors *)

Lemma pre_inc_off (c : Iterator) :
  off (Iterator.m_Ptr (Iterator.pre_inc c)) = off (Iterator.m_Ptr c) + 1.
Proof. done. Qed.

Lemma post_inc_off (c : Iterator) :
  off (Iterator.m_Ptr (fst (Iterator.post_inc c))) = off (Iterator.m_Ptr c) + 1.
Proof. done. Qed.

Lemma pre_dec_off (c : Iterator) :
  off (Iterator.m_Ptr (Iterator.pre_dec c)) = off (Iterator.m_Ptr c) - 1.
Proof. done. Qed.

(** C8, as the code has it: postfix retreat [operator--(int)] applies
    [++] to the cursor, so the cursor moves one position toward the end
    instead of one position toward the start, and its distance from
    [Begin()] grows by one instead of decreasing by one.  (Prefix
    advance, postfix advance and prefix retreat do step by one in their
    stated direction: [pre_inc_off], [post_inc_off], [pre_dec_off].) *)
Theorem post_dec_moves_toward_end (c : Iterator) :
  fst (Iterator.post_dec c) = Iterator.pre_inc c ∧
  off (Iterator.m_Ptr (fst (Iterator.post_dec c))) = off (Iterator.m_Ptr c) + 1 ∧
  off (Iterator.m_Ptr (fst (Iterator.post_dec c))) ≠ off (Iterator.m_Ptr c) - 1.
Proof. repeat split. simpl. lia. Qed.

(** C9: for every vector whose length is a [SizeType] value that
    [DifferenceType] can represent, [End() - Begin()] equals [Size()];
    and [Begin() == End()] holds exactly when [Empty()] holds. *)
Theorem End_minus_Begin (v : Vector) :
  (0 ≤ m_Size v ≤ PTRDIFF_MAX → Iterator.diff (End v) (Begin v) = Size v) ∧
  Iterator.eq (Begin v) (End v) = Empty v.
Proof.
  split.
  - intros H. unfold Iterator.diff, End, Begin, ptr_diff, Size. simpl.
    replace (off (m_Data v) + m_Size v - off (m_Data v)) with (m_Size v) by lia.
    apply sint_small. unfold PTRDIFF_MAX in *. lia.
  - unfold Iterator.eq, Begin, End, Empty, ptr_eqb, ptr_add. simpl.
    destruct (m_Data v) as [b o]. simpl.
    destruct (Z.eqb_spec (m_Size v) 0) as [->|Hne].
    + apply bool_decide_eq_true_2. f_equal. lia.
    + apply bool_decide_eq_false_2. intros [=]. lia.
Qed.

(** C10: postfix advance returns the cursor's new, advanced position:
    what it returns equals what prefix advance yields on a copy of the
    cursor, equals the cursor itself after the call, and differs from
    the position before the call. *)
Theorem post_inc_returns_advanced (c : Iterator) :
  Iterator.eq (snd (Iterator.post_inc c)) (Iterator.pre_inc c) = true ∧
  snd (Iterator.post_inc c) = fst (Iterator.post_inc c) ∧
  Iterator.eq (snd (Iterator.post_inc c)) c = false.
Proof.
  split; [by apply bool_decide_eq_true_2|]. split; [done|].
  apply bool_decide_eq_false_2. destruct c as [[b o]]. simpl. intros [=]. lia.
Qed.

(** ** Checked access *)

Lemma repr_Size s es : repr s es → m_Size (this s) = Z.of_nat (length es).
Proof. by intros (? & ? & _ & ? & _). Qed.

(** C1: for every state and every index, [At(index)] throws
    [std::out_of_range] exactly when [index >= Size()], in particular
    [At(0)] on an empty vector; it throws nothing else, and a throw leaves
    the whole state (so size, capacity and elements) as it was.  When
    [index < Size()] the call returns, without changing the state, the
    reference to slot [index], and in a vector holding [es] that slot
    holds the element of [es] at index [index]. *)
Theorem At_checked s index :
  (At index s = Throw out_of_range s ↔ index >= Size (this s)) ∧
  (∀ e s', At index s = Throw e s' → e = out_of_range ∧ s' = s) ∧
  (Empty (this s) = true → At 0 s = Throw out_of_range s) ∧
  (index < Size (this s) → At index s = Ok (subscript (this s) index) s) ∧
  (∀ es, repr s es → 0 ≤ index < Size (this s) →
     ∃ x, es !! Z.to_nat index = Some x ∧
          deref s (subscript (this s) index) = Some x).
Proof.
  unfold Size, Empty. split; [|split; [|split; [|split]]].
  - destruct (Z.lt_ge_cases index (m_Size (this s))) as [Hlt|Hge].
    + rewrite (At_ok s index Hlt). split; [done|lia].
    + rewrite (At_throws s index Hge). split; [lia|done].
  - intros e s'. destruct (Z.lt_ge_cases index (m_Size (this s))) as [Hlt|Hge].
    + by rewrite (At_ok s index Hlt).
    + rewrite (At_throws s index Hge). by intros [= <- <-].
  - intros HE. apply Z.eqb_eq in HE. apply At_throws. lia.
  - apply At_ok.
  - intros es Hr [Hi Hlt]. rewrite (repr_Size s es Hr) in Hlt.
    destruct (lookup_lt_is_Some_2 es (Z.to_nat index)) as [x Hx]; [lia|].
    exists x. split; [done|].
    rewrite <- (Z2Nat.id index Hi). by eapply deref_subscript.
Qed.

(** ** Reallocation *)

(** C3: [Reallocate(newCapacity)] with [newCapacity] below the length
    throws [std::invalid_argument] and the state at the throw is the
    state before the call: nothing was changed.  With [newCapacity] at
    least the length it returns, the vector holds the same elements in
    the same order, its length is unchanged and its capacity is
    [newCapacity]. *)
Theorem Reallocate_spec s es newCapacity :
  repr s es → 0 ≤ newCapacity ≤ SIZE_MAX →
  (newCapacity < Size (this s) →
     Reallocate newCapacity s = Throw invalid_argument s) ∧
  (newCapacity >= Size (this s) →
     ∃ s', Reallocate newCapacity s = Ok tt s' ∧
           repr s' es ∧
           Size (this s') = Size (this s) ∧
           Capacity (this s') = newCapacity).
Proof.
  intros Hr Hc. split.
  - apply Reallocate_throws.
  - intros Hge.
    destruct (Reallocate_ok s es newCapacity Hr) as (s' & ? & ? & ? & ? & _);
      [unfold Size in *; lia|].
    by exists s'.
Qed.

(** ** Positional insertion and erasure *)


Lemma lookup_erased (es : list T) (k : nat) (i : nat) :
  (k < length es)%nat →
  (take k es ++ drop (S k) es) !! i
  = if (i <? k)%nat then es !! i else es !! S i.
Proof.
  intros Hk. destruct (Nat.ltb_spec i k).
  - rewrite lookup_app_l by (rewrite length_take_le; lia).
    by rewrite lookup_take_lt.
  - rewrite lookup_app_r by (rewrite length_take_le; lia).
    rewrite length_take_le by lia. rewrite lookup_drop. f_equal. lia.
Qed.


(** C6: on a vector holding [es] and for the cursor [Begin() + k] with
    [k < Size()], [Erase] returns and leaves the vector holding [es]
    without its element at index [k]: the elements below [k] stay,
    every element that was at an index [i > k] is at [i - 1], and
    [Size()] has decreased by one. *)
Theorem Erase_spec s es (k : nat) position :
  repr s es → (k < length es)%nat →
  position = Iterator.add (Begin (this s)) (Z.of_nat k) →
  let es' := take k es ++ drop (S k) es in
  (∃ s', Erase position s = Ok tt s' ∧
         repr s' es' ∧ Size (this s') = Size (this s) - 1) ∧
  (∀ i : nat, es' !! i = if (i <? k)%nat then es !! i else es !! S i).
Proof.
  intros Hr Hk -> es'. split.
  - destruct (Erase_ok s es k Hr Hk) as (s' & Hs' & Hr' & _).
    exists s'. repeat split; [done..|]. unfold Size.
    rewrite (repr_Size _ _ Hr'), (repr_Size _ _ Hr).
    rewrite length_app, length_take_le, length_drop by lia. lia.
  - intros i. by apply lookup_erased.
Qed.

(** ** [PushBack] followed by [PopBack] *)

(** [PushBack] of an object of the caller followed by [PopBack], on a
    vector of capacity at least one that is not full or can grow. *)
Lemma PushBack_PopBack_of_value s es x :
  repr s es → 1 ≤ Capacity (this s) →
  Size (this s) < Capacity (this s) ∨ 2 * Capacity (this s) ≤ SIZE_MAX →
  ∃ s1 s2,
    PushBack (outside x) s = Ok tt s1 ∧ PopBack s1 = Ok tt s2 ∧
    (PushBack (outside x);; PopBack) s = Ok tt s2 ∧
    Size (this s2) = Size (this s) ∧
    repr s2 es ∧
    Capacity (this s2) = Capacity (this s1) ∧
    (Size (this s) < Capacity (this s) → Capacity (this s2) = Capacity (this s)) ∧
    (Size (this s) = Capacity (this s) → Capacity (this s2) = 2 * Capacity (this s)).
Proof.
  intros Hr Hcap Hfit. unfold Size, Capacity in *.
  destruct (PushBack_ok s es x Hr Hcap Hfit) as (s1 & Hs1 & Hr1 & Hc1 & _).
  destruct (PopBack_last s1 es x Hr1) as (s2 & Hs2 & Hr2 & Hc2 & _).
  exists s1, s2. rewrite (bind_Ok _ _ _ _ _ Hs1).
  pose proof (repr_Size _ _ Hr) as Hn. pose proof (repr_Size _ _ Hr2) as Hn2.
  unfold Size in *.
  repeat split; try done; try congruence.
  - intros Hlt. rewrite Hc2, Hc1.
    by destruct (Z.eqb_spec (m_Size (this s)) (m_Capacity (this s))); [lia|].
  - intros Heq. rewrite Hc2, Hc1.
    by destruct (Z.eqb_spec (m_Size (this s)) (m_Capacity (this s))).
Qed.

(** ** Sequences of [PushBack] *)

Lemma doubled_smallest n c : doubled n c → smallest_pow2_ge n c.
Proof.
  intros (k & Hk & -> & Hle & Hmin). split; [by exists k|]. split; [done|].
  intros c' (k' & Hk' & ->) Hle'.
  destruct (Z.le_gt_cases k k') as [?|Hlt]; [by apply Z.pow_le_mono_r|].
  destruct Hmin as [->|Hmin]; [lia|].
  assert (2 ^ k' ≤ 2 ^ (k - 1)) by (apply Z.pow_le_mono_r; lia). lia.
Qed.

Lemma doubled_push n c :
  0 ≤ n → doubled n c →
  doubled (n + 1) (if n =? c then 2 * c else c).
Proof.
  intros Hn (k & Hk & -> & Hle & Hmin).
  assert (0 < 2 ^ k) by (apply Z.pow_pos_nonneg; lia).
  destruct (Z.eqb_spec n (2 ^ k)) as [->|Hne].
  - exists (k + 1). rewrite Z.pow_add_r by lia.
    replace (k + 1 - 1) with k by lia. repeat split; try lia.
  - exists k. repeat split; try lia.
Qed.

Lemma PushBack_cases s es value :
  repr s es → 1 ≤ m_Capacity (this s) →
  (m_Size (this s) = m_Capacity (this s) ∧ 2 ^ 63 ≤ m_Capacity (this s) ∧
   PushBack (outside value) s = Throw invalid_argument s) ∨
  (∃ s', PushBack (outside value) s = Ok tt s' ∧
         repr s' (es ++ [value]) ∧
         m_Capacity (this s') =
           (if m_Size (this s) =? m_Capacity (this s)
            then 2 * m_Capacity (this s) else m_Capacity (this s))).
Proof.
  intros Hr Hcap. pose proof (repr_bounds _ _ Hr) as Hb.
  destruct (Z.eq_dec (m_Size (this s)) (m_Capacity (this s))) as [Heq|Hne];
    [destruct (Z.le_gt_cases (2 ^ 63) (m_Capacity (this s))) as [Hbig|Hsmall]|].
  - left. repeat split; [done..|]. by eapply PushBack_throws.
  - right. destruct (PushBack_ok s es value Hr Hcap) as (s' & ? & ? & ? & _);
      [unfold SIZE_MAX; lia|by exists s'].
  - right. destruct (PushBack_ok s es value Hr Hcap) as (s' & ? & ? & ? & _);
      [lia|by exists s'].
Qed.

Lemma push_all_cases xs :
  ∀ s es,
    repr s es → doubled (m_Size (this s)) (m_Capacity (this s)) →
    match push_all xs s with
    | Ok _ s' =>
        repr s' (es ++ xs) ∧ doubled (m_Size (this s')) (m_Capacity (this s'))
    | Throw e _ =>
        e = invalid_argument ∧ 2 ^ 63 < Z.of_nat (length es + length xs)
    | UB => False
    end.
Proof.
  induction xs as [|x xs IH]; intros s es Hr Hd.
  - simpl. unfold ret. by rewrite (right_id_L [] (++)).
  - cbn [push_all]. pose proof (repr_bounds _ _ Hr) as Hb.
    pose proof (repr_Size _ _ Hr) as Hn.
    assert (Hcap : 1 ≤ m_Capacity (this s)).
    { destruct Hd as (k & Hk & -> & _).
      assert (0 < 2 ^ k) by (apply Z.pow_pos_nonneg; lia). lia. }
    destruct (PushBack_cases s es x Hr Hcap) as [(Heq & Hbig & Hs)|(s1 & Hs1 & Hr1 & Hc1)].
    + rewrite (bind_Throw _ _ _ _ _ Hs). split; [done|]. simpl. lia.
    + rewrite (bind_Ok _ _ _ _ _ Hs1).
      assert (Hd1 : doubled (m_Size (this s1)) (m_Capacity (this s1))).
      { rewrite (repr_Size _ _ Hr1), length_app, Hc1. simpl.
        replace (Z.of_nat (length es + 1)) with (m_Size (this s) + 1) by lia.
        apply doubled_push; [lia|done]. }
      specialize (IH s1 (es ++ [x]) Hr1 Hd1).
      rewrite <- (assoc_L (++)), length_app in IH. simpl in IH.
      destruct (push_all xs s1); [done| |done].
      destruct IH as [-> IH]. split; [done|]. simpl. lia.
Qed.

(** X24: take any values [xs], construct a vector by default and call
    [PushBack] once per value, in order, each time with an object of
    the caller holding the value.  Up to [2^63] calls the sequence
    returns.  Whenever it returns, [Size()] is the number of
    calls, [At(i)] returns for every [i] below it the reference
    [operator[]] gives, holding the [i]-th pushed value, and
    [Capacity()] is the smallest power of two that is at least the
    number of calls.  (A longer sequence does not return: the call that
    finds [2^63] elements in a full vector throws
    [std::invalid_argument], since twice the capacity wraps to zero.)
    The overload taking an rvalue runs the same steps
    ([PushBack_move_eq]). *)
Theorem PushBack_sequence s0 xs :
  let n := Z.of_nat (length xs) in
  (n ≤ 2 ^ 63 → ∃ s, (Vector_default;; push_all xs) s0 = Ok tt s) ∧
  (2 ^ 63 < n → ∃ s, (Vector_default;; push_all xs) s0 = Throw invalid_argument s) ∧
  (∀ s, (Vector_default;; push_all xs) s0 = Ok tt s →
     Size (this s) = n ∧
     (∀ (i : nat) x, xs !! i = Some x →
        At (Z.of_nat i) s = Ok (subscript (this s) (Z.of_nat i)) s ∧
        deref s (subscript (this s) (Z.of_nat i)) = Some x) ∧
     smallest_pow2_ge n (Capacity (this s))).
Proof.
  intros n. destruct (Vector_default_ok s0) as (s1 & Hs1 & Hr1 & Hn1 & Hc1).
  rewrite (bind_Ok _ _ _ _ _ Hs1).
  assert (Hd1 : doubled (m_Size (this s1)) (m_Capacity (this s1))).
  { rewrite Hn1, Hc1. exists 0. repeat split; lia. }
  pose proof (push_all_cases xs s1 [] Hr1 Hd1) as Hcases. simpl in Hcases.
  destruct (push_all xs s1) as [[] s|e s|]; [|destruct Hcases as [-> Hbig]|done].
  - destruct Hcases as [Hr Hd]. pose proof (repr_Size _ _ Hr) as Hn.
    split; [by exists s|]. split.
    { intros Hbig. exfalso. fold n in Hn.
      destruct Hd as (k & Hk & Hc & Hle & [->|Hmin]).
      - pose proof (repr_bounds _ _ Hr). simpl in Hc. lia.
      - pose proof (repr_bounds _ _ Hr) as Hb'.
        assert (k ≤ 63 ∨ 64 ≤ k) as [Hk'|Hk'] by lia.
        + assert (2 ^ k ≤ 2 ^ 63) by (apply Z.pow_le_mono_r; lia). lia.
        + assert (2 ^ 64 ≤ 2 ^ k) by (apply Z.pow_le_mono_r; lia).
          unfold SIZE_MAX in Hb'. lia. }
    intros s' [= <-]. split; [done|]. split.
    + intros i x Hx. split.
      * apply At_ok. rewrite Hn. apply lookup_lt_Some in Hx. lia.
      * by eapply deref_subscript.
    + unfold Capacity. fold n in Hn. rewrite <- Hn. by apply doubled_smallest.
  - split; [intros; fold n in Hbig; lia|]. split; [by exists s|]. done.
Qed.

(** ** The invariant *)



(** * Ownership: what a method does to the heap *)

(** ** Rules *)

Lemma triple_ret {A} (a : A) (Q : A → State → Prop) E :
  triple (Q a) (ret a) Q E.
Proof. by intros s H. Qed.

Lemma triple_throw {A} e (Q : A → State → Prop) (E : State → Prop) :
  triple E (throw e) Q E.
Proof. by intros s H. Qed.

Lemma triple_bind {A B} P (m : M A) (f : A → M B) R Q E :
  triple P m R E → (∀ a, triple (R a) (f a) Q E) → triple P (m ≫= f) Q E.
Proof.
  intros Hm Hf s HP. specialize (Hm s HP).
  unfold mbind, M_bind, bind. destruct (m s) as [a s'|e s'|]; [|done..].
  by apply Hf.
Qed.

Lemma triple_weaken {A} (P P' : State → Prop) (m : M A) Q E :
  (∀ s, P s → P' s) → triple P' m Q E → triple P m Q E.
Proof. intros HP Hm s Hs. apply Hm, HP, Hs. Qed.

Lemma triple_get {A B} P (g : Vector → A) (f : A → M B) Q E :
  (∀ a, triple (fun s => P s ∧ a = g (this s)) (f a) Q E) →
  triple P (get g ≫= f) Q E.
Proof. intros Hf s HP. rewrite bind_get. by apply Hf. Qed.

Lemma triple_forget {A B} P (g : Vector → A) (f : A → M B) Q E :
  (∀ a, triple P (f a) Q E) → triple P (get g ≫= f) Q E.
Proof. intros Hf s HP. rewrite bind_get. by apply Hf. Qed.

Lemma triple_for_up P E body n :
  (∀ i, triple P (body i) (fun _ => P) E) →
  ∀ i, triple P (for_up n i body) (fun _ => P) E.
Proof.
  intros Hbody. induction n as [|n IH]; intros i; [by intros s H|].
  eapply triple_bind; [apply Hbody|]. intros ?. apply IH.
Qed.


(** ** The primitives keep to their block *)

Section owns.

Variable h0 : gmap nat (list cell).
Variable E : State → Prop.

Lemma apart_ptr_add p n : apart h0 p → apart h0 (ptr_add p n).
Proof. done. Qed.

Lemma owns_load k p :
  triple (owns h0 k) (load p) (fun _ => owns h0 k) E.
Proof. intros s H. unfold load. by destruct (cell_at (heap s) p). Qed.

Lemma owns_store k p c :
  apart h0 p → triple (owns h0 k) (store p c) (fun _ => owns h0 k) E.
Proof.
  intros Hp s (Hsub & Hsize & Hthis). unfold store.
  destruct (blk p) as [b|] eqn:Hb; [|done].
  destruct (heap s !! b) as [l|] eqn:Hl; [|done].
  destruct (_ && _); [|done]. unfold owns. cbn [heap this]. split; [|split; [|done]].
  - apply insert_subseteq_r; [by apply Hp|done].
  - rewrite map_size_insert_Some; [done|by rewrite Hl].
Qed.


Lemma owns_set_this k v :
  apart h0 (m_Data v) → triple (owns h0 k) (set_this v) (fun _ => owns h0 k) E.
Proof. intros Hv s (Hsub & Hsize & _). by unfold set_this, owns. Qed.

Lemma owns_get_Data {B} k (f : Pointer → M B) Q :
  (∀ d, apart h0 d → triple (owns h0 k) (f d) Q E) →
  triple (owns h0 k) (get m_Data ≫= f) Q E.
Proof. intros Hf s H. rewrite bind_get. apply Hf; [apply H|done]. Qed.


Lemma owns_set_Size k n :
  triple (owns h0 k) (set_Size n) (fun _ => owns h0 k) E.
Proof. intros s H. apply (owns_set_this k); [apply H|done]. Qed.

Lemma owns_set_Capacity k n :
  triple (owns h0 k) (set_Capacity n) (fun _ => owns h0 k) E.
Proof. intros s H. apply (owns_set_this k); [apply H|done]. Qed.

Lemma owns_set_Data k p :
  apart h0 p → triple (owns h0 k) (set_Data p) (fun _ => owns h0 k) E.
Proof. intros Hp s H. by apply (owns_set_this k). Qed.

Lemma owns_Allocate k capacity :
  triple (owns h0 k) (Allocate capacity)
    (fun p s => owns h0 (S k) s ∧ apart h0 p) E.
Proof.
  intros s (Hsub & Hsize & Hthis). unfold Allocate, owns. cbn [heap this].
  assert (Hfresh : heap s !! fresh (dom (heap s)) = None)
    by apply not_elem_of_dom, is_fresh.
  assert (Hout : h0 !! fresh (dom (heap s)) = None)
    by (by eapply lookup_weaken_None).
  split; [split; [|split; [|done]]|].
  - by apply insert_subseteq_r.
  - rewrite map_size_insert_None by done. lia.
  - by intros b [= <-].
Qed.

Lemma owns_release k p :
  apart h0 p → triple (owns h0 (S k)) (release p) (fun _ => owns h0 k) E.
Proof.
  intros Hp s (Hsub & Hsize & Hthis). unfold release.
  destruct (blk p) as [b|] eqn:Hb; [|done]. case_bool_decide as Hlive; [|done].
  destruct Hlive as [_ Hlive]. unfold owns. cbn [heap this]. split; [|split; [|done]].
  - apply map_subseteq_spec. intros i x Hi.
    rewrite lookup_delete_ne; [by eapply lookup_weaken|].
    intros <-. rewrite (Hp b Hb) in Hi. done.
  - rewrite map_size_delete_Some by done. lia.
Qed.

(** ** The methods keep to the vector's block *)

Lemma owns_construct_move k p q :
  apart h0 p → apart h0 q →
  triple (owns h0 k) (construct_move p q) (fun _ => owns h0 k) E.
Proof.
  intros Hp Hq. eapply triple_bind; [apply owns_load|]. intros c.
  eapply triple_bind; [by apply owns_store|]. intros ?. by apply owns_store.
Qed.

Lemma owns_Deallocate k :
  triple (owns h0 (S k)) Deallocate (fun _ => owns h0 k) E.
Proof. apply owns_get_Data. intros d Hd. by apply owns_release. Qed.

End owns.

Lemma owns_Reallocate h0 newCapacity :
  triple (owns h0 1) (Reallocate newCapacity) (fun _ => owns h0 1) (owns h0 1).
Proof.
  apply triple_forget. intros n. destruct (newCapacity <? n); [apply triple_throw|].
  eapply triple_bind; [apply owns_Allocate|]. intros newArray.
  intros s [Hs Hnew]. revert s Hs.
  change (triple (owns h0 2)
            (for_lt 0 n (fun i =>
               d ← get m_Data;
               construct_move (ptr_add newArray i) (ptr_add d i);;
               destroy (ptr_add d i));;
             Deallocate;; set_Data newArray;; set_Capacity newCapacity)
            (fun _ => owns h0 1) (owns h0 1)).
  eapply triple_bind.
  { apply triple_for_up. intros i. apply owns_get_Data. intros d Hd.
    eapply triple_bind; [by apply owns_construct_move|]. intros ?. by apply owns_store. }
  intros ?. eapply triple_bind; [apply owns_Deallocate|]. intros ?.
  eapply triple_bind; [by apply owns_set_Data|]. intros ?. apply owns_set_Capacity.
Qed.

Lemma owns_grow h0 (n c : Z) :
  triple (owns h0 1)
    (if n =? c then Reallocate (wrap (c * 2)) else ret tt)
    (fun _ => owns h0 1) (owns h0 1).
Proof. destruct (n =? c); [apply owns_Reallocate|by intros s H]. Qed.


Lemma owns_Clear h0 E :
  triple (owns h0 1) Clear (fun _ => owns h0 1) E.
Proof.
  apply triple_forget. intros n. eapply triple_bind.
  { apply triple_for_up. intros i. apply owns_get_Data. intros d Hd. by apply owns_store. }
  intros ?. apply owns_set_Size.
Qed.

Lemma owns_PushBack h0 value :
  triple (owns h0 1) (PushBack (outside value)) (fun _ => owns h0 1) (owns h0 1).
Proof.
  apply triple_forget. intros n. apply triple_forget. intros c.
  eapply triple_bind; [apply owns_grow|]. intros ?.
  apply owns_get_Data. intros d Hd. apply triple_forget. intros n'.
  eapply triple_bind; [by apply owns_store|]. intros ?. apply owns_set_Size.
Qed.







Lemma owns_Vector_destroy h0 :
  triple (owns h0 1) Vector_destroy (fun _ s => heap s = h0) (owns h0 1).
Proof.
  eapply triple_bind; [apply owns_Clear|]. intros ?.
  intros s H. pose proof (owns_Deallocate h0 (owns h0 1) 0 s H) as Hd.
  destruct (Deallocate s) as [[] s'|e s'|]; [|done..].
  destruct Hd as (Hsub & Hsize & _). symmetry. apply map_subseteq_size_eq; [done|lia].
Qed.


(** The block a well-formed vector owns, and the rest of the heap. *)
Lemma repr_owns s es :
  repr s es →
  ∃ b, m_Data (this s) = mkPointer (Some b) 0 ∧ is_Some (heap s !! b) ∧
       owns (delete b (heap s)) 1 s.
Proof.
  intros (b & rest & Hd & _ & _ & _ & Hb). exists b. split; [done|].
  split; [by rewrite Hb|]. split; [apply delete_subseteq|]. split.
  - rewrite map_size_delete_Some by (by rewrite Hb).
    assert (size (heap s) ≠ 0%nat); [|lia].
    apply map_size_ne_0_lookup. eauto.
  - rewrite Hd. intros b' [= <-]. apply lookup_delete_eq.
Qed.

Lemma owns_loop_copy h0 E other n :
  ∀ i, triple (owns h0 1)
         (for_up n i (fun i =>
            d ← get m_Data; construct_copy (ptr_add d i) (subscript other i)))
         (fun _ => owns h0 1) E.
Proof.
  apply triple_for_up. intros i. apply owns_get_Data. intros d Hd.
  eapply triple_bind; [apply owns_load|]. intros c. by apply owns_store.
Qed.

Lemma owns_Vector_copy h0 E other :
  triple (fun s => heap s = h0) (Vector_copy other) (fun _ => owns h0 1) E.
Proof.
  intros s <-. unfold Vector_copy.
  rewrite (bind_Ok _ _ _ _ _ (proj2 (Allocate_fresh s (m_Capacity other)))).
  erewrite bind_Ok; [|done]. unfold for_lt.
  apply owns_loop_copy. unfold owns. cbn [heap this m_Data].
  pose proof (proj1 (Allocate_fresh s (m_Capacity other))) as Hfresh. cbn in Hfresh.
  split; [by apply insert_subseteq|].
  split; [rewrite map_size_insert_None by done; lia|by intros b [= <-]].
Qed.

(** ** Sequences of calls *)


(** * Reference arguments *)

(** ** The methods in parts, for any reference *)

Lemma PushBack_parts value s :
  PushBack value s = (grow_if_full;; construct_at_end_by construct_from value) s.
Proof. done. Qed.

Lemma PushBack_move_parts value s :
  PushBack_move value s = (grow_if_full;; construct_at_end_by construct_move_from value) s.
Proof. done. Qed.

Lemma Insert_parts position value s :
  Insert position value s
  = (b ← get Begin;
     grow_if_full;;
     shift (fun i => d ← get m_Data;
                     print (ptr_add d i);;
                     construct_move (ptr_add d i) (ptr_add d (i - 1)))
       (Iterator.diff position b);;
     put_by assign_from (Iterator.diff position b) value) s.
Proof. done. Qed.

Lemma Insert_move_parts position value s :
  Insert_move position value s
  = (b ← get Begin;
     grow_if_full;;
     shift (fun i => d ← get m_Data;
                     construct_move (ptr_add d i) (ptr_add d (i - 1)))
       (Iterator.diff position b);;
     put_by assign_move_from (Iterator.diff position b) value) s.
Proof. done. Qed.

Lemma bind_cong {A B} (m : M A) (f g : A → M B) s :
  (∀ a s1, m s = Ok a s1 → f a s1 = g a s1) → (m ≫= f) s = (m ≫= g) s.
Proof.
  intros H. unfold mbind, M_bind, bind. destruct (m s); [by apply H|done..].
Qed.

(** ** Reading through a reference *)

Lemma referent_read s value x : referent s value = Some x → read value s = Ok x s.
Proof.
  destruct value as [y|p]; simpl; [by intros [= ->]|].
  unfold deref, read. by destruct (cell_at (heap s) p) as [[y|]|]; simpl; intros [= ->].
Qed.

Lemma cell_at_frame (h0 h : gmap nat (list cell)) p c :
  h0 ⊆ h → cell_at h0 p = Some c → cell_at h p = Some c.
Proof.
  intros Hsub. unfold cell_at. destruct (blk p) as [b|]; [|done].
  destruct (h0 !! b) as [l|] eqn:Hl; [|done].
  by rewrite (lookup_weaken _ _ _ _ Hl Hsub).
Qed.

(** A reference that does not lead into the buffer of the vector reads
    the same element whatever the vector does to its own storage. *)
Lemma independent_read s es value x :
  repr s es → referent s value = Some x → ¬ into_buffer (this s) value →
  ∃ h0, owns h0 1 s ∧
        (∀ k s', owns h0 k s' → read value s' = Ok x s') ∧
        (∀ d, apart h0 d → match value with
                           | outside _ => True
                           | inside p => blk p ≠ blk d
                           end).
Proof.
  intros Hr Hx Hout. destruct (repr_owns s es Hr) as (b & Hd & _ & Hown).
  exists (delete b (heap s)). split; [done|].
  destruct value as [y|p]; simpl in *.
  { split; [|done]. intros. by injection Hx as ->. }
  rewrite Hd in Hout. simpl in Hout.
  unfold deref in Hx. destruct (cell_at (heap s) p) as [[y|]|] eqn:Hc; simplify_eq/=.
  assert (Hc0 : cell_at (delete b (heap s)) p = Some (Some x)).
  { unfold cell_at in *. destruct (blk p) as [bp|]; [|done].
    rewrite lookup_delete_ne by congruence. done. }
  split.
  - intros k s' (Hsub & _). unfold read.
    by rewrite (cell_at_frame (delete b (heap s)) (heap s') p (Some x) Hsub).
  - intros d Hd' Heq. unfold cell_at in Hc0. destruct (blk p) as [bp|]; [|done].
    rewrite (Hd' bp) in Hc0 by done. done.
Qed.

Lemma owns_grow_if_full h0 :
  triple (owns h0 1) grow_if_full (fun _ => owns h0 1) (owns h0 1).
Proof. apply triple_forget. intros n. apply triple_forget. intros c. apply owns_grow. Qed.



(** ** The const-reference overloads *)


Lemma construct_from_read p value x s :
  read value s = Ok x s → construct_from p value s = construct_from p (outside x) s.
Proof. intros H. unfold construct_from, mbind, M_bind, bind. by rewrite H. Qed.


(** [PushBack] of a reference is [PushBack] of the object it designates
    at the call, when the vector has room or the reference does not
    lead into its buffer. *)
Lemma PushBack_ref s es value x :
  repr s es → referent s value = Some x →
  Size (this s) < Capacity (this s) ∨ ¬ into_buffer (this s) value →
  PushBack value s = PushBack (outside x) s.
Proof.
  intros Hr Hx Hcase. rewrite !PushBack_parts.
  assert (Hread : ∀ s1, grow_if_full s = Ok tt s1 → read value s1 = Ok x s1).
  { intros s1 Hs1. destruct Hcase as [Hroom|Hout].
    - rewrite grow_if_full_not_full in Hs1 by (unfold Size, Capacity in *; lia).
      injection Hs1 as <-. by apply referent_read.
    - destruct (independent_read s es value x Hr Hx Hout) as (h0 & Hown & Hall & _).
      pose proof (owns_grow_if_full h0 s Hown) as Hg. rewrite Hs1 in Hg.
      by eapply Hall. }
  apply bind_cong. intros [] s1 Hs1.
  unfold construct_at_end_by. rewrite !bind_get.
  unfold mbind, M_bind, bind. by rewrite (construct_from_read _ _ x) by by apply Hread.
Qed.


(** ** The rvalue overloads *)

Lemma bind_assoc {A B C} (m : M A) (f : A → M B) (g : B → M C) s :
  ((m ≫= f) ≫= g) s = (m ≫= (fun a => f a ≫= g)) s.
Proof. unfold mbind, M_bind, bind. by destruct (m s). Qed.

Lemma bind_ret_tt (m : M unit) s : (m;; ret tt) s = m s.
Proof. unfold mbind, M_bind, bind. by destruct (m s) as [[] s'|e s'|]. Qed.

Lemma bind_cong_l {A B} (m m' : M A) (f : A → M B) s :
  m s = m' s → (m ≫= f) s = (m' ≫= f) s.
Proof. intros H. unfold mbind, M_bind, bind. by rewrite H. Qed.

(** Stores into different blocks can be made in either order. *)
Lemma store_store_ne p q c c' s :
  blk p ≠ blk q → (store p c;; store q c') s = (store q c';; store p c) s.
Proof.
  intros Hne. unfold mbind, M_bind, bind, store.
  destruct (blk p) as [bp|] eqn:Hp, (blk q) as [bq|] eqn:Hq; cbn [this heap cout].
  all: try (by repeat case_match).
  assert (bp ≠ bq) by congruence.
  destruct (heap s !! bp) as [lp|] eqn:Hlp, (heap s !! bq) as [lq|] eqn:Hlq.
  all: try (by repeat case_match).
  - destruct ((0 <=? off p) && _) eqn:H1, ((0 <=? off q) && _) eqn:H2;
      cbn [this heap cout]; rewrite ?lookup_insert_ne by done;
      rewrite ?Hlp, ?Hlq, ?H1, ?H2; try done.
    by rewrite insert_insert_ne.
  - destruct ((0 <=? off p) && _) eqn:H1; cbn [this heap cout]; [|done].
    by rewrite lookup_insert_ne, Hlq.
  - destruct ((0 <=? off q) && _) eqn:H1; cbn [this heap cout]; [|done].
    by rewrite lookup_insert_ne, Hlp.
Qed.

(** A store and an update of [m_Size] can be made in either order. *)
Lemma store_set_Size p c n s :
  (store p c;; set_Size n) s = (set_Size n;; store p c) s.
Proof.
  unfold set_Size, set_this, get, store, mbind, M_bind, bind. cbn [this heap cout].
  destruct (blk p) as [b|]; [|done]. destruct (heap s !! b) as [l|]; [|done].
  by destruct (_ && _).
Qed.


(** Moving from a reference is constructing from the object it
    designates and leaving the moved-from state behind, which can be
    done last when the reference leads elsewhere. *)
Lemma leave_last value x dst (k : M unit) s :
  read value s = Ok x s →
  match value with outside _ => True | inside p => blk p ≠ blk dst end →
  (∀ p c s', (store p c;; k) s' = (k;; store p c) s') →
  ((x' ← read value; leave value x';; store dst (Some x'));; k) s
  = (store dst (Some x);; k;; leave value x) s.
Proof.
  intros Hread Hne Hk.
  transitivity (((leave value x;; store dst (Some x));; k) s).
  { apply bind_cong_l. unfold mbind at 1, M_bind at 1, bind at 1. by rewrite Hread. }
  destruct value as [y|p]; cbn [leave].
  - rewrite bind_assoc. unfold mbind at 1, M_bind at 1, bind at 1, ret. cbn beta iota.
    symmetry. etrans; [|apply bind_ret_tt].
    rewrite <- (bind_assoc (store dst (Some x)) (fun _ => k) (fun _ => ret tt)). done.
  - rewrite (bind_cong_l _ _ _ _ (store_store_ne p dst _ _ s Hne)).
    rewrite !bind_assoc. apply bind_cong. intros [] s1 _. apply Hk.
Qed.

Lemma PushBack_move_ref s es value x :
  repr s es → referent s value = Some x → ¬ into_buffer (this s) value →
  PushBack_move value s = (PushBack (outside x);; leave value x) s.
Proof.
  intros Hr Hx Hout. rewrite PushBack_move_parts.
  destruct (independent_read s es value x Hr Hx Hout) as (h0 & Hown & Hall & Hne).
  pose proof (owns_grow_if_full h0 s Hown) as Hg.
  transitivity ((grow_if_full;;
                 (construct_at_end_by construct_from (outside x);; leave value x)) s);
    [|symmetry;
      exact (bind_assoc grow_if_full
               (fun _ => construct_at_end_by construct_from (outside x))
               (fun _ => leave value x) s)].
  apply bind_cong. intros [] s1 Hs1. rewrite Hs1 in Hg.
  unfold construct_at_end_by.
  rewrite bind_assoc, !bind_get, bind_assoc, bind_get, bind_assoc.
  etrans; [|done].
  apply (leave_last value x (ptr_add (m_Data (this s1)) (m_Size (this s1)))
           (set_Size (wrap (m_Size (this s1) + 1))) s1).
  - by eapply Hall.
  - specialize (Hne (m_Data (this s1)) (proj2 (proj2 Hg))). by destruct value.
  - intros. apply store_set_Size.
Qed.



(** What is left behind a reference that leads elsewhere does not
    concern the vector. *)
Lemma leave_after s es value x (op : M unit) s' es' :
  repr s es → referent s value = Some x → ¬ into_buffer (this s) value →
  (∀ h0, triple (owns h0 1) op (fun _ => owns h0 1) (owns h0 1)) →
  op s = Ok tt s' → repr s' es' →
  ∃ s'', (op;; leave value x) s = Ok tt s'' ∧
         repr s'' es' ∧ this s'' = this s' ∧ cout s'' = cout s'.
Proof.
  intros Hr Hx Hout Hop Hs' Hr'.
  destruct (independent_read s es value x Hr Hx Hout) as (h0 & Hown & Hall & Hne).
  pose proof (Hop h0 s Hown) as Hown'. rewrite Hs' in Hown'.
  rewrite (bind_Ok _ _ _ _ _ Hs').
  destruct value as [y|p]; cbn [leave]; [by exists s'|].
  pose proof (Hall _ _ Hown') as Hread. unfold read in Hread.
  destruct (cell_at (heap s') p) as [[y|]|] eqn:Hc; simplify_eq.
  specialize (Hne _ (proj2 (proj2 Hown'))).
  destruct Hr' as (b' & rest & Hd & Hn & Hcap & Hmax & Hb').
  unfold cell_at in Hc. unfold store.
  destruct (blk p) as [bp|] eqn:Hp; [|done].
  destruct (heap s' !! bp) as [l|] eqn:Hl; [|done].
  destruct (Z.leb_spec 0 (off p)); [|done].
  apply lookup_lt_Some in Hc.
  destruct (Z.ltb_spec (off p) (Z.of_nat (length l))); [|lia]. cbn [andb].
  eexists. split; [done|]. split; [|done].
  exists b', rest. cbn [this heap cout]. repeat split; try done.
  rewrite lookup_insert_ne; [done|]. rewrite Hd in Hne. cbn in Hne. congruence.
Qed.

Lemma PushBack_move_ref_ok s es value x s' es' :
  repr s es → referent s value = Some x → ¬ into_buffer (this s) value →
  PushBack (outside x) s = Ok tt s' → repr s' es' →
  ∃ s'', PushBack_move value s = Ok tt s'' ∧
         repr s'' es' ∧ this s'' = this s' ∧ cout s'' = cout s'.
Proof.
  intros Hr Hx Hout Hs' Hr'. rewrite (PushBack_move_ref s es value x) by done.
  eapply leave_after; try done. intros h0. apply owns_PushBack.
Qed.

(** * Calls with a reference as argument *)

(** C7, as the code has it: on a vector of capacity at least one that is
    not full or can grow (twice its capacity is a [SizeType] value),
    [PushBack(value)] followed by [PopBack()] returns, restores
    [Size()] and the elements, and [PopBack] does not shrink:
    [Capacity()] is what [PushBack] left, which is the capacity before
    the pair when the vector was not full, and twice that when it was
    full.  [value] is any reference to an object [x], except, when the
    vector is full, a reference to an element of the vector itself. *)
Theorem PushBack_PopBack s es value x :
  repr s es → 1 ≤ Capacity (this s) →
  Size (this s) < Capacity (this s) ∨ 2 * Capacity (this s) ≤ SIZE_MAX →
  referent s value = Some x →
  Size (this s) < Capacity (this s) ∨ ¬ into_buffer (this s) value →
  ∃ s1 s2,
    PushBack value s = Ok tt s1 ∧ PopBack s1 = Ok tt s2 ∧
    (PushBack value;; PopBack) s = Ok tt s2 ∧
    repr s1 (es ++ [x]) ∧
    Size (this s2) = Size (this s) ∧
    repr s2 es ∧
    Capacity (this s2) = Capacity (this s1) ∧
    (Size (this s) < Capacity (this s) → Capacity (this s2) = Capacity (this s)) ∧
    (Size (this s) = Capacity (this s) → Capacity (this s2) = 2 * Capacity (this s)).
Proof.
  intros Hr Hcap Hfit Hx Hcase.
  pose proof (PushBack_ref s es value x Hr Hx Hcase) as Hv.
  destruct (PushBack_PopBack_of_value s es x Hr Hcap Hfit)
    as (s1 & s2 & Hs1 & Hs2 & Hs & Hrest).
  destruct (PushBack_ok s es x Hr Hcap Hfit) as (s1' & Hs1' & Hr1 & _).
  assert (s1' = s1) as -> by congruence.
  rewrite <- Hv in Hs1. exists s1, s2. split; [done|]. split; [done|].
  split; [by rewrite (bind_Ok _ _ _ _ _ Hs1)|]. by split.
Qed.

(** C4, where the code fails it: [PushBack] called on a full vector with
    a reference to an element of the vector itself, as in
    [v.PushBack(v[0])].  The growth step moves the elements to a new
    buffer and releases the old one; the reference still leads into the
    released buffer when the new element is constructed from it, so
    both overloads read freed storage: undefined behaviour. *)
Theorem PushBack_own_element_when_full s es p :
  repr s es → Size (this s) = Capacity (this s) →
  2 * Capacity (this s) ≤ SIZE_MAX →
  blk p = blk (m_Data (this s)) →
  PushBack (inside p) s = UB ∧ PushBack_move (inside p) s = UB.
Proof.
  destruct s as [[d n c] h o].
  intros (b & rest & Hd & Hn & Hc & Hmax & Hb) Hfull Hfit Hp.
  unfold Size, Capacity in *. simpl in *. subst d. rewrite <- Hfull in *. clear Hfull.
  assert (Hgrow : grow_if_full (mkState (mkVector (mkPointer (Some b) 0) n n) h o)
                  = Ok tt (mkState (mkVector (mkPointer (Some (fresh (dom h))) 0) n (n * 2))
                             (<[fresh (dom h) :=
                                  (Some <$> es) ++ replicate (Z.to_nat (n * 2) - length es) None]>
                                (delete b h)) o)).
  { unfold grow_if_full. rewrite !bind_get. cbn [this m_Size m_Capacity].
    rewrite Z.eqb_refl, wrap_small by lia.
    apply (Reallocate_exact b n n h o es rest); [done|done|lia]. }
  assert (Hfresh : h !! fresh (dom h) = None) by apply not_elem_of_dom, is_fresh.
  assert (Hgone : ∀ s', heap s' = <[fresh (dom h) :=
                     (Some <$> es) ++ replicate (Z.to_nat (n * 2) - length es) None]>
                     (delete b h) →
                   read (inside p) s' = UB).
  { intros s' Hh. unfold read, cell_at. rewrite Hp. cbn [blk].
    rewrite Hh, lookup_insert_ne by congruence. by rewrite lookup_delete_eq. }
  split.
  - rewrite PushBack_parts, (bind_Ok _ _ _ _ _ Hgrow).
    unfold construct_at_end_by, construct_from. rewrite !bind_get.
    unfold mbind, M_bind, bind. by rewrite Hgone.
  - rewrite PushBack_move_parts, (bind_Ok _ _ _ _ _ Hgrow).
    unfold construct_at_end_by, construct_move_from. rewrite !bind_get.
    unfold mbind, M_bind, bind. by rewrite Hgone.
Qed.

(** * Further properties of the code *)

(** ** Sequences of calls and ownership of storage *)







(** ** Growth and the validity of cursors *)

(** X5: [PushBack] on a vector with room ([Size() < Capacity()]) works in
    place, whatever its argument refers to, an element of the vector
    itself included: the object [x] behind the reference is appended,
    the buffer and so [Begin()] stay the same, the capacity is
    unchanged, nothing is printed, and every reference to an element
    obtained before the call still designates that element. *)
Theorem PushBack_with_room_is_in_place s es value x :
  repr s es → Size (this s) < Capacity (this s) →
  referent s value = Some x →
  ∃ s', PushBack value s = Ok tt s' ∧
        repr s' (es ++ [x]) ∧
        Begin (this s') = Begin (this s) ∧
        Capacity (this s') = Capacity (this s) ∧
        cout s' = cout s ∧
        ∀ (i : nat) y, es !! i = Some y →
          deref s' (subscript (this s) (Z.of_nat i)) = Some y.
Proof.
  intros Hr0 Hlt0 Hx.
  rewrite (PushBack_ref s es value x Hr0 Hx (or_introl Hlt0)).
  clear Hx. revert Hr0 Hlt0.
  destruct s as [[d n c] h o].
  intros (b & rest & Hd & Hn & Hc & Hmax & Hb) Hlt.
  unfold Size, Capacity in *. simpl in *. subst d.
  destruct rest as [|r rest]; [simpl in Hc; lia|].
  assert (Hs : PushBack (outside x) (mkState (mkVector (mkPointer (Some b) 0) n c) h o)
               = Ok tt (mkState (mkVector (mkPointer (Some b) 0) (n + 1) c)
                          (<[b := (Some <$> es) ++ Some x :: rest]> h) o)).
  { rewrite PushBack_unfold. erewrite bind_Ok;
      [|apply grow_if_full_not_full; simpl; lia].
    eapply construct_at_end_exact; [by rewrite length_fmap|lia|done]. }
  assert (Hr' : repr (mkState (mkVector (mkPointer (Some b) 0) (n + 1) c)
                        (<[b := (Some <$> es) ++ Some x :: rest]> h) o)
                  (es ++ [x])).
  { exists b, rest. cbn. rewrite lookup_insert_eq, fmap_app, <- (assoc_L (++)), length_app.
    simpl in *. repeat split; try done; lia. }
  eexists. split; [exact Hs|]. split; [exact Hr'|]. do 3 (split; [done|]).
  intros i y Hy.
  apply (deref_subscript _ _ i y Hr'). by apply lookup_app_l_Some.
Qed.

(** X6: [PushBack] on a full vector, with a reference to an object [x]
    that does not lead into the buffer of the vector, moves the
    elements to a new buffer of twice the capacity, releases the old
    one and appends [x].  [Begin()] changes, and a reference or cursor
    obtained before the call designates nothing afterwards: reading
    through the old [Begin()] is undefined behaviour. *)
Theorem PushBack_when_full_invalidates_cursors s es value x :
  repr s es → 1 ≤ Capacity (this s) → Size (this s) = Capacity (this s) →
  2 * Capacity (this s) ≤ SIZE_MAX →
  referent s value = Some x → ¬ into_buffer (this s) value →
  ∃ s', PushBack value s = Ok tt s' ∧
        repr s' (es ++ [x]) ∧
        Capacity (this s') = 2 * Capacity (this s) ∧
        blk (m_Data (this s')) ≠ blk (m_Data (this s)) ∧
        (∀ i, cell_at (heap s') (subscript (this s) i) = None) ∧
        load (Iterator.deref (Begin (this s))) s' = UB.
Proof.
  intros Hr0 Hcap0 Hfull0 Hfit0 Hx Hout.
  rewrite (PushBack_ref s es value x Hr0 Hx (or_intror Hout)).
  clear Hx Hout. revert Hr0 Hcap0 Hfull0 Hfit0.
  destruct s as [[d n c] h o].
  intros (b & rest & Hd & Hn & Hc & Hmax & Hb) Hcap Hfull Hfit.
  unfold Size, Capacity in *. simpl in *. subst d.
  assert (c = n) as -> by lia. clear Hfull.
  set (bn := fresh (dom h)).
  assert (Hfresh : h !! bn = None) by apply not_elem_of_dom, is_fresh.
  assert (Hne : b ≠ bn) by congruence.
  set (extra := (Z.to_nat (n * 2) - length es)%nat).
  assert (Hextra : extra = S (Z.to_nat n - 1)) by (unfold extra; lia).
  set (h' := <[bn := (Some <$> es) ++ Some x :: replicate (Z.to_nat n - 1) None]>
               (delete b h)).
  assert (Hs : PushBack (outside x) (mkState (mkVector (mkPointer (Some b) 0) n n) h o)
               = Ok tt (mkState (mkVector (mkPointer (Some bn) 0) (n + 1) (n * 2)) h' o)).
  { rewrite PushBack_unfold. erewrite bind_Ok; cycle 1.
    { unfold grow_if_full. rewrite !bind_get. cbn [this m_Size m_Capacity].
      rewrite Z.eqb_refl, wrap_small by lia.
      apply (Reallocate_exact b n n h o es rest (n * 2)); [done|done|lia]. }
    fold bn extra. rewrite Hextra. cbn [replicate].
    rewrite (construct_at_end_exact bn n (n * 2) _ o (Some <$> es) None
               (replicate (Z.to_nat n - 1) None) x);
      [|by rewrite length_fmap|lia|by apply lookup_insert_eq].
    do 2 f_equal. unfold h'. heap_eq. }
  assert (Hgone : h' !! b = None).
  { unfold h'. rewrite lookup_insert_ne, lookup_delete_eq by done. done. }
  eexists. split; [exact Hs|]. split; [|split; [|split; [|split]]].
  - exists bn, (replicate (Z.to_nat n - 1) None). cbn. unfold h'.
    rewrite lookup_insert_eq, fmap_app, <- (assoc_L (++)), length_app, length_replicate.
    simpl. repeat split; try done; lia.
  - cbn. lia.
  - cbn. congruence.
  - intros i. unfold cell_at, subscript. cbn. by rewrite Hgone.
  - unfold load, cell_at, Iterator.deref, Begin. cbn. by rewrite Hgone.
Qed.

Lemma push_all_in_place xs :
  ∀ s es,
    repr s es → m_Size (this s) + Z.of_nat (length xs) ≤ m_Capacity (this s) →
    ∃ s', push_all xs s = Ok tt s' ∧
          repr s' (es ++ xs) ∧
          m_Data (this s') = m_Data (this s) ∧
          m_Capacity (this s') = m_Capacity (this s).
Proof.
  induction xs as [|x xs IH]; intros s es Hr Hroom.
  - exists s. by rewrite (right_id_L [] (++)).
  - cbn [push_all length] in *.
    destruct (construct_at_end_ok s es x Hr) as (s1 & Hs1 & Hr1 & Hc1 & _); [lia|].
    assert (Hp : PushBack (outside x) s = Ok tt s1).
    { rewrite PushBack_unfold. erewrite bind_Ok; [|apply grow_if_full_not_full; lia].
      done. }
    assert (Hd1 : m_Data (this s1) = m_Data (this s)).
    { revert Hs1. unfold construct_at_end, construct. rewrite !bind_get.
      unfold mbind, M_bind, bind, store, set_Size.
      destruct (blk _) as [b|]; [|done]. destruct (heap s !! b); [|done].
      destruct (_ && _); [|done]. by intros [= <-]. }
    destruct (IH s1 (es ++ [x]) Hr1) as (s2 & Hs2 & Hr2 & Hd2 & Hc2).
    { rewrite (repr_Size _ _ Hr1), length_app, Hc1. rewrite (repr_Size _ _ Hr) in Hroom.
      simpl. lia. }
    exists s2. rewrite (bind_Ok _ _ _ _ _ Hp). rewrite <- (assoc_L (++)) in Hr2.
    repeat split; try done; congruence.
Qed.
(** ** [Clear], [Front] and [Back] *)

(** X9: [Clear()] empties the vector and keeps its storage: afterwards
    [Size()] is zero, [At] throws for every index, the capacity and the
    buffer are those from before the call, and the vector can be
    refilled up to that capacity without a reallocation. *)
Theorem Clear_keeps_storage s es xs :
  repr s es → Z.of_nat (length xs) ≤ Capacity (this s) →
  ∃ s' s'',
    Clear s = Ok tt s' ∧
    Size (this s') = 0 ∧ Empty (this s') = true ∧
    Capacity (this s') = Capacity (this s) ∧
    Begin (this s') = Begin (this s) ∧
    Iterator.eq (Begin (this s')) (End (this s')) = true ∧
    (∀ i, 0 ≤ i → At i s' = Throw out_of_range s') ∧
    push_all xs s' = Ok tt s'' ∧
    repr s'' xs ∧
    Begin (this s'') = Begin (this s) ∧ Capacity (this s'') = Capacity (this s).
Proof.
  intros Hr Hlen. unfold Size, Capacity, Empty, Begin, End, Iterator.eq in *.
  destruct (Clear_ok s es Hr) as (s' & Hs' & Hr' & Hd' & Hc' & _).
  pose proof (repr_Size _ _ Hr') as Hn'. simpl in Hn'.
  destruct (push_all_in_place xs s' [] Hr') as (s'' & Hs'' & Hr'' & Hd'' & Hc''); [lia|].
  exists s', s''. rewrite Hn', Hd'', Hc'', Hd', Hc'.
  repeat split; try done.
  - apply bool_decide_eq_true_2. destruct (m_Data (this s)) as [b o].
    unfold ptr_add. simpl. f_equal. lia.
  - intros i Hi. apply At_throws. lia.
Qed.

(** X10: on a non-empty vector [Front()] designates the first element and
    [Back()] the last, the slots that [operator[]] gives for the indices
    [0] and [Size() - 1]; dereferencing [Begin()] gives [Front()].  On an
    empty vector [Back()] is the address before the buffer, which is not
    a slot. *)
Theorem Front_Back_designate s es :
  repr s es →
  Front (this s) = subscript (this s) 0 ∧
  Back (this s) = subscript (this s) (Size (this s) - 1) ∧
  Iterator.deref (Begin (this s)) = Front (this s) ∧
  (es ≠ [] → deref s (Front (this s)) = head es ∧
             deref s (Back (this s)) = last es) ∧
  (es = [] → cell_at (heap s) (Back (this s)) = None).
Proof.
  intros Hr. pose proof (repr_Size _ _ Hr) as Hn.
  destruct Hr as (b & rest & Hd & _ & Hc & Hmax & Hb).
  assert (Hr : repr s es) by (exists b, rest; by rewrite <- Hn).
  unfold Front, Back, subscript, Size, Begin, Iterator.deref, ptr_add, ptr_sub.
  rewrite Hd, Hn. cbn [blk off Iterator.m_Ptr].
  split; [done|]. split; [f_equal; lia|]. split; [done|]. split.
  - intros Hne. split.
    + destruct es as [|e es]; [done|].
      pose proof (deref_subscript s (e :: es) 0 e Hr eq_refl) as H0.
      unfold subscript, ptr_add in H0. rewrite Hd in H0. exact H0.
    + destruct es as [|e es _] using rev_ind; [done|].
      rewrite last_snoc, length_app. simpl.
      replace (0 + Z.of_nat (length es + 1) - 1) with (0 + Z.of_nat (length es)) by lia.
      pose proof (deref_subscript s (es ++ [e]) (length es) e Hr
                    (list_lookup_middle _ _ _ _ eq_refl)) as Hl.
      unfold subscript, ptr_add in Hl. rewrite Hd in Hl. exact Hl.
  - intros ->. unfold cell_at. cbn. rewrite Hb. done.
Qed.

(** ** How the operations compose *)


Lemma place_at_end body s value :
  0 ≤ m_Size (this s) ≤ PTRDIFF_MAX →
  place body (m_Size (this s)) value s = construct_at_end value s.
Proof.
  intros Hn. unfold place, construct_at_end, for_gt. rewrite !bind_get.
  rewrite wrap_small by (unfold PTRDIFF_MAX, SIZE_MAX in *; lia).
  rewrite Z.sub_diag. change (Z.to_nat 0) with 0%nat. cbn [for_down].
  unfold assign, construct, mbind, M_bind, bind, ret, get, store.
  destruct (blk _) as [b|]; [|done]. destruct (heap s !! b); [|done].
  by destruct (_ && _).
Qed.

(** The makers of an element leave the fields of [*this] alone. *)
Lemma store_this p c s s' : store p c s = Ok tt s' → this s' = this s.
Proof.
  unfold store. destruct (blk p) as [b|]; [|done].
  destruct (heap s !! b); [|done]. destruct (_ && _); [|done]. by intros [= <-].
Qed.

Lemma read_state value s x s' : read value s = Ok x s' → s' = s.
Proof.
  unfold read. destruct value as [y|p]; [by intros [= _ <-]|].
  by destruct (cell_at (heap s) p) as [[y|]|]; intros [= _ <-].
Qed.

Lemma leave_this value x s s' : leave value x s = Ok tt s' → this s' = this s.
Proof. destruct value; [by intros [= <-]|apply store_this]. Qed.






(** ** A vector without capacity *)

Lemma store_empty_block b p c s :
  heap s !! b = Some [] → blk p = Some b → store p c s = UB.
Proof.
  intros Hb Hp. unfold store. rewrite Hp, Hb.
  destruct (Z.leb_spec 0 (off p)); [|done].
  destruct (Z.ltb_spec (off p) (Z.of_nat (length (@nil cell)))); [|done].
  simpl in *. lia.
Qed.

Lemma leave_keeps_empty_block b value x s s' :
  heap s !! b = Some [] → leave value x s = Ok tt s' →
  heap s' !! b = Some [] ∧ this s' = this s.
Proof.
  intros Hb Hs. split; [|by eapply leave_this].
  destruct value as [y|p]; [by injection Hs as <-|]. cbn [leave] in Hs.
  destruct (decide (blk p = Some b)) as [Hp|Hp].
  { by rewrite (store_empty_block b p _ s Hb Hp) in Hs. }
  unfold store in Hs. destruct (blk p) as [bp|]; [|done].
  destruct (heap s !! bp); [|done]. destruct (_ && _); [|done].
  injection Hs as <-. cbn. rewrite lookup_insert_ne by congruence. done.
Qed.

Lemma read_no_throw value s e s' : read value s ≠ Throw e s'.
Proof.
  unfold read. destruct value as [y|p]; [done|].
  by destruct (cell_at (heap s) p) as [[y|]|].
Qed.

Lemma leave_no_throw value x s e s' : leave value x s ≠ Throw e s'.
Proof.
  destruct value as [y|p]; [done|]. cbn [leave]. unfold store.
  destruct (blk p) as [b|]; [|done]. destruct (heap s !! b); [|done].
  by destruct (_ && _).
Qed.

(** On a vector whose buffer is empty nothing can be made at index
    zero, whatever the argument. *)
Lemma make_in_empty_block b value s :
  m_Data (this s) = mkPointer (Some b) 0 → m_Size (this s) = 0 →
  heap s !! b = Some [] →
  construct_at_end_by construct_from value s = UB ∧
  construct_at_end_by construct_move_from value s = UB ∧
  put_by assign_from 0 value s = UB ∧
  put_by assign_move_from 0 value s = UB.
Proof.
  intros Hd Hn Hb.
  unfold construct_at_end_by, put_by, construct_from, construct_move_from,
    assign_from, assign_move_from, construct, assign.
  rewrite !bind_get, Hd, Hn. unfold mbind, M_bind, bind.
  destruct (read value s) as [x s1|e s1|] eqn:Hread;
    [|by apply read_no_throw in Hread|done].
  apply read_state in Hread as ->.
  rewrite (store_empty_block b _ _ s Hb) by done.
  destruct (leave value x s) as [[] s2|e s2|] eqn:Hl;
    [|by apply leave_no_throw in Hl|done].
  destruct (leave_keeps_empty_block b value x s s2 Hb Hl) as [Hb2 _].
  by rewrite (store_empty_block b _ _ s2 Hb2).
Qed.

(** X13: [Vector(0)] is a vector that cannot take an element.  Its
    capacity is zero, doubling it gives zero again, so both overloads
    of [PushBack] and both overloads of [Insert] at [Begin()], whatever
    their argument, reallocate to an empty buffer and then store past
    its end: undefined behaviour. *)
Theorem zero_capacity_vector_cannot_grow s0 value :
  ∃ s, Vector_count 0 s0 = Ok tt s ∧
       Capacity (this s) = 0 ∧
       PushBack value s = UB ∧
       PushBack_move value s = UB ∧
       Insert (Begin (this s)) value s = UB ∧
       Insert_move (Begin (this s)) value s = UB.
Proof.
  destruct (Vector_count_ok s0 0) as (s & Hs & Hr & Hn & Hc); [lia|].
  exists s. split; [done|]. split; [done|].
  assert (Hdiff : Iterator.diff (Begin (this s)) (Begin (this s)) = 0).
  { unfold Iterator.diff, ptr_diff. by rewrite Z.sub_diag. }
  destruct (grow_if_full_doubles s [] Hr) as (s1 & Hs1 & Hr1 & Hc1 & Hn1 & _);
    [lia|unfold SIZE_MAX; lia|].
  destruct Hr1 as (b & rest & Hd1 & Hsz1 & Hcap1 & _ & Hb1). simpl in *.
  assert (rest = []) as -> by (destruct rest; [done|simpl in *; lia]).
  destruct (make_in_empty_block b value s1 Hd1 Hsz1 Hb1) as (H1 & H2 & H3 & H4).
  rewrite PushBack_parts, PushBack_move_parts, Insert_parts, Insert_move_parts.
  rewrite !bind_get, Hdiff, !(bind_Ok _ _ _ _ _ Hs1).
  assert (Hshift : ∀ body, shift body 0 s1 = Ok tt s1).
  { intros body. unfold shift, for_gt. by rewrite bind_get, Hsz1. }
  by rewrite !(bind_Ok _ _ _ _ _ (Hshift _)).
Qed.
(** ** The capacity over time *)



(** ** Cursors *)

Lemma iter_pre_inc k it :
  Nat.iter k Iterator.pre_inc it = Iterator.add it (Z.of_nat k).
Proof.
  induction k as [|k IH].
  - destruct it as [[b o]]. unfold Iterator.add, Iterator.add_assign, ptr_add.
    simpl. do 2 f_equal. lia.
  - rewrite Nat.iter_succ, IH. destruct it as [[b o]].
    unfold Iterator.pre_inc, Iterator.add, Iterator.add_assign, ptr_add.
    cbn [Iterator.m_Ptr blk off]. do 2 f_equal. lia.
Qed.

(** X15: stepping a cursor from [Begin()] with prefix [++] walks the
    elements in order.  After [k] steps, [k < Size()], the cursor is not
    [End()] and dereferences to the element at index [k]; after
    [Size()] steps it is [End()]. *)
Theorem traversal_visits_elements s es :
  repr s es →
  (∀ (k : nat) x, es !! k = Some x →
     let it := Nat.iter k Iterator.pre_inc (Begin (this s)) in
     deref s (Iterator.deref it) = Some x ∧
     Iterator.ne it (End (this s)) = true ∧
     Iterator.lt it (End (this s)) = true) ∧
  Iterator.eq (Nat.iter (length es) Iterator.pre_inc (Begin (this s)))
              (End (this s)) = true.
Proof.
  intros Hr. pose proof (repr_Size _ _ Hr) as Hn. split.
  - intros k x Hx it. unfold it. rewrite iter_pre_inc.
    pose proof (lookup_lt_Some _ _ _ Hx) as Hk.
    split; [by apply (deref_subscript s es k x)|].
    unfold Iterator.ne, Iterator.lt, Iterator.add, Iterator.add_assign, End, Begin,
      ptr_eqb, ptr_ltb, ptr_add. cbn [Iterator.m_Ptr blk off]. rewrite Hn. split.
    + apply negb_true_iff, bool_decide_eq_false_2. intros [=]. lia.
    + apply Z.ltb_lt. lia.
  - rewrite iter_pre_inc.
    unfold Iterator.eq, Iterator.add, Iterator.add_assign, End, Begin, ptr_eqb.
    cbn [Iterator.m_Ptr]. rewrite Hn. by apply bool_decide_eq_true_2.
Qed.

(** X16: cursors into one vector are ordered as their indices.  For the
    cursors [Begin() + i] and [Begin() + j], each of [==], [!=], [<],
    [<=], [>], [>=] gives what the same comparison of [i] and [j] gives,
    and their difference is [i - j] when a [DifferenceType] can hold
    it. *)
Theorem cursor_order_is_index_order (v : Vector) i j :
  let a := Iterator.add (Begin v) i in
  let b := Iterator.add (Begin v) j in
  Iterator.eq a b = (i =? j) ∧
  Iterator.ne a b = negb (i =? j) ∧
  Iterator.lt a b = (i <? j) ∧
  Iterator.le a b = (i <=? j) ∧
  Iterator.gt a b = (i >? j) ∧
  Iterator.ge a b = (i >=? j) ∧
  (- 2 ^ 63 ≤ i - j ≤ PTRDIFF_MAX → Iterator.diff a b = i - j).
Proof.
  intros a b. destruct v as [[bk o] n c].
  unfold a, b, Iterator.eq, Iterator.ne, Iterator.lt, Iterator.le, Iterator.gt,
    Iterator.ge, Iterator.diff, Iterator.add, Iterator.add_assign, Begin,
    ptr_eqb, ptr_ltb, ptr_leb, ptr_diff, ptr_add.
  cbn [Iterator.m_Ptr blk off m_Data].
  assert (Heq : bool_decide (mkPointer bk (o + i) = mkPointer bk (o + j)) = (i =? j)).
  { destruct (Z.eqb_spec i j) as [->|Hne].
    - by apply bool_decide_eq_true_2.
    - apply bool_decide_eq_false_2. intros [=]. lia. }
  rewrite Heq. repeat split.
  - destruct (Z.ltb_spec (o + i) (o + j)), (Z.ltb_spec i j); (done || lia).
  - destruct (Z.leb_spec (o + i) (o + j)), (Z.leb_spec i j); (done || lia).
  - rewrite Z.gtb_ltb. destruct (Z.ltb_spec (o + j) (o + i)), (Z.ltb_spec j i); (done || lia).
  - rewrite Z.geb_leb. destruct (Z.leb_spec (o + j) (o + i)), (Z.leb_spec j i); (done || lia).
  - intros Hfit. replace (o + i - (o + j)) with (i - j) by lia. by apply sint_small.
Qed.

(** X17: cursor arithmetic undoes itself.  Offsetting by [n] and back
    gives the cursor again, in either order; offsets add up; [it - n] is
    [it + (-n)]; prefix [--] undoes prefix [++]; [it[n]] is the slot
    [*(it + n)]; and the distance from a cursor to the cursor [n] slots
    further is [n] when a [DifferenceType] can hold it. *)
Theorem cursor_offsets_round_trip (it : Iterator) n m :
  Iterator.sub (Iterator.add it n) n = it ∧
  Iterator.add (Iterator.sub it n) n = it ∧
  Iterator.add (Iterator.add it n) m = Iterator.add it (n + m) ∧
  Iterator.sub it n = Iterator.add it (- n) ∧
  Iterator.pre_dec (Iterator.pre_inc it) = it ∧
  Iterator.pre_inc (Iterator.pre_dec it) = it ∧
  Iterator.index it n = Iterator.deref (Iterator.add it n) ∧
  (- 2 ^ 63 ≤ n ≤ PTRDIFF_MAX → Iterator.diff (Iterator.add it n) it = n).
Proof.
  destruct it as [[b o]].
  unfold Iterator.sub, Iterator.add, Iterator.sub_assign, Iterator.add_assign,
    Iterator.pre_dec, Iterator.pre_inc, Iterator.index, Iterator.deref, Iterator.diff,
    ptr_diff, ptr_add, ptr_sub.
  cbn [Iterator.m_Ptr blk off].
  repeat split; try (do 2 f_equal; lia).
  intros Hfit. replace (o + n - o) with n by lia. by apply sint_small.
Qed.

(** ** What becomes of the removed element *)

Lemma PopBack_exact b (n c : Z) h o (cells : list cell) x rest :
  n = Z.of_nat (length cells) + 1 → n ≤ SIZE_MAX →
  h !! b = Some (cells ++ x :: rest) →
  PopBack (mkState (mkVector (mkPointer (Some b) 0) n c) h o)
  = Ok tt (mkState (mkVector (mkPointer (Some b) 0) (n - 1) c)
             (<[b := cells ++ None :: rest]> h) o).
Proof.
  intros -> Hmax Hb. unfold PopBack. rewrite bind_get. cbn [this m_Size].
  destruct (Z.eqb_spec (Z.of_nat (length cells) + 1) 0); [lia|].
  unfold set_Size. erewrite bind_Ok; [|by rewrite bind_get].
  rewrite !bind_get. fields. rewrite wrap_small by lia.
  replace (Z.of_nat (length cells) + 1 - 1) with (Z.of_nat (length cells)) by lia.
  rewrite ptr_add_block. unfold destroy.
  erewrite store_at; [|done|apply length_middle].
  by rewrite insert_middle.
Qed.

(** X18: [PopBack()] on an empty vector does nothing: the state is the
    one before the call.  On a vector holding [es' ++ [x]] it leaves
    [es'], decrements [Size()], keeps the capacity and the buffer, prints
    nothing, and destructs the removed element: the slot just past the
    new end holds no element. *)
Theorem PopBack_removes_last s es :
  repr s es →
  (es = [] → PopBack s = Ok tt s) ∧
  (∀ es' x, es = es' ++ [x] →
     ∃ s', PopBack s = Ok tt s' ∧
           repr s' es' ∧
           Size (this s') = Size (this s) - 1 ∧
           Capacity (this s') = Capacity (this s) ∧
           Begin (this s') = Begin (this s) ∧
           cout s' = cout s ∧
           cell_at (heap s') (subscript (this s') (Size (this s'))) = Some None).
Proof.
  intros Hr. split.
  - intros ->. apply PopBack_empty. by rewrite (repr_Size _ _ Hr).
  - intros es' x ->. destruct s as [[d n c] h o].
    destruct Hr as (b & rest & Hd & Hn & Hc & Hmax & Hb).
    unfold Size, Capacity, Begin. simpl in *. subst d.
    rewrite length_app in *. simpl in *.
    rewrite fmap_app, <- (assoc_L (++)) in Hb. simpl in Hb.
    eexists. split.
    { apply (PopBack_exact b n c h o (Some <$> es') (Some x) rest);
        [rewrite length_fmap; lia|lia|done]. }
    cbn. split; [|split; [done|split; [done|split; [done|split; [done|]]]]].
    + exists b, (None :: rest). cbn. rewrite lookup_insert_eq.
      repeat split; try done; lia.
    + unfold cell_at, subscript, ptr_add. cbn. rewrite lookup_insert_eq.
      destruct (Z.leb_spec 0 (0 + (n - 1))); [|lia].
      replace (Z.to_nat (0 + (n - 1))) with (length (Some <$> es'))
        by (rewrite length_fmap; lia).
      by rewrite lookup_middle.
Qed.

Lemma shift_down_loop_exact v b xs :
  m_Data v = mkPointer (Some b) 0 →
  ∀ pre c post h o,
    h !! b = Some (pre ++ c :: xs ++ post) →
    for_up (length xs) (Z.of_nat (length pre))
      (fun i => d ← get m_Data; construct_move (ptr_add d i) (ptr_add d (i + 1)))
      (mkState v h o)
    = Ok tt (mkState v
               (<[b := pre ++ xs ++ from_option (fmap moved) c (last xs) :: post]> h) o).
Proof.
  intros Hd. induction xs as [|x xs IH]; intros pre c post h o Hb.
  - simpl. unfold ret. do 2 f_equal. simpl in Hb. heap_eq.
  - cbn [length for_up]. simpl in Hb.
    rewrite (bind_Ok _ _ _ _ _ (move_down_step v h o b pre x c (xs ++ post) Hd Hb)).
    replace (Z.of_nat (length pre) + 1) with (Z.of_nat (length (pre ++ [x])))
      by (rewrite length_app; simpl; lia).
    rewrite (IH (pre ++ [x]) (moved <$> x) post
               (<[b := pre ++ x :: (moved <$> x) :: xs ++ post]> h) o);
      [|rewrite lookup_insert_eq; by rewrite <- (assoc_L (++))].
    do 2 f_equal. rewrite <- !(assoc_L (++)). simpl.
    replace (from_option (fmap moved) c (last (x :: xs)))
      with (from_option (fmap moved) (moved <$> x) (last xs))
      by (destruct xs as [|y t]; [done|];
          change (last (x :: y :: t)) with (last (y :: t));
          destruct (last (y :: t)) eqn:E; [done|by apply last_None in E]).
    heap_eq.
Qed.

(** X19: [Erase] never destructs.  After [Erase] at the cursor
    [Begin() + k] the slot just past the new end still holds an element:
    the erased element itself when it was the last one, and otherwise
    the moved-from state of the element that was last.  The buffer is
    the same and nothing is printed. *)
Theorem Erase_leaves_an_element_behind s es (k : nat) :
  repr s es → (k < length es)%nat →
  ∃ s' e,
    Erase (Iterator.add (Begin (this s)) (Z.of_nat k)) s = Ok tt s' ∧
    Size (this s') = Size (this s) - 1 ∧
    Begin (this s') = Begin (this s) ∧
    cout s' = cout s ∧
    last es = Some e ∧
    cell_at (heap s') (subscript (this s') (Size (this s')))
    = Some (Some (if bool_decide (S k = length es) then e else moved e)).
Proof.
  destruct s as [[d n c] h o].
  intros (b & rest & Hd & Hn & Hc & Hmax & Hb) Hk. simpl in *. subst d n.
  destruct (lookup_lt_is_Some_2 es k Hk) as [e He].
  rewrite <- (take_drop_middle es k e He), fmap_app, fmap_cons, <- (assoc_L (++)) in Hb.
  simpl in Hb.
  pose proof (shift_down_loop_exact
                (mkVector (mkPointer (Some b) 0) (Z.of_nat (length es)) c) b
                (Some <$> drop (S k) es) eq_refl
                (Some <$> take k es) (Some e) rest h o Hb) as Hloop.
  rewrite !length_fmap, length_take_le, length_drop in Hloop by lia.
  assert (Hlast : ∃ e', last es = Some e' ∧
            from_option (fmap moved) (Some e) (last (Some <$> drop (S k) es))
            = Some (if bool_decide (S k = length es) then e' else moved e')).
  { rewrite fmap_last. case_bool_decide as Hend.
    - rewrite drop_ge by lia. simpl. exists e. split; [|done].
      rewrite last_lookup. rewrite <- He. f_equal. lia.
    - destruct (last (drop (S k) es)) as [e'|] eqn:Hl.
      + exists e'. split; [|done]. rewrite last_lookup in *.
        rewrite lookup_drop, length_drop in Hl. rewrite <- Hl. f_equal. lia.
      + apply last_None in Hl. apply (f_equal length) in Hl.
        rewrite length_drop in Hl. simpl in Hl. lia. }
  destruct Hlast as (e' & He' & Hcell). rewrite Hcell in Hloop.
  eexists _, e'. split.
  { unfold Erase. rewrite bind_get, diff_add_Begin_sint, bind_get. fields.
    unfold for_lt.
    rewrite wrap_sint by (unfold SIZE_MAX in *; lia).
    rewrite !wrap_small by (unfold SIZE_MAX in *; lia).
    replace (Z.to_nat (Z.of_nat (length es) - 1 - Z.of_nat k))
      with (length es - S k)%nat by lia.
    erewrite bind_Ok; [|exact Hloop].
    unfold set_Size. rewrite !bind_get. unfold set_this. fields.
    rewrite wrap_small by (unfold SIZE_MAX in *; lia). done. }
  unfold Size, Begin. cbn. do 4 (split; [done|]).
  unfold cell_at, subscript, ptr_add. cbn. rewrite lookup_insert_eq.
  destruct (Z.leb_spec 0 (0 + (Z.of_nat (length es) - 1))); [|lia].
  rewrite (assoc_L (++)).
  replace (Z.to_nat (0 + (Z.of_nat (length es) - 1)))
    with (length ((Some <$> take k es) ++ (Some <$> drop (S k) es))).
  - by rewrite lookup_middle.
  - rewrite length_app, !length_fmap, length_take_le, length_drop by lia. lia.
Qed.

(** ** The debug output of [Insert] *)








(** ** Moving and assigning vectors *)

Lemma Vector_move_exact other s0 :
  Vector_move other s0
  = Ok (mkVector (mkPointer (Some (fresh (dom (heap s0)))) 0) 0 1)
      (mkState other (<[fresh (dom (heap s0)) := [None]]> (heap s0)) (cout s0)).
Proof. by destruct other. Qed.

Lemma destroy_then s h0 {A} (k : M A) :
  owns h0 1 s →
  match Clear s with
  | Ok _ s1 =>
      match Deallocate s1 with
      | Ok _ s2 => heap s2 = h0 ∧ (Clear;; Deallocate;; k) s = k s2
      | _ => True
      end
  | _ => True
  end.
Proof.
  intros Hown. pose proof (owns_Vector_destroy h0 s Hown) as Hd.
  unfold Vector_destroy, mbind, M_bind, bind in *.
  destruct (Clear s) as [[] s1|e s1|]; [|done..].
  by destruct (Deallocate s1) as [[] s2|e s2|].
Qed.

(** X21: the move constructor transfers the buffer and allocates.  The
    new vector is the source field for field (same buffer, length and
    capacity; no element is copied, moved or destructed, and every block
    of the heap is as before); the source is left empty with capacity 1
    in a block of its own, which the constructor allocates, so that the
    heap has one more block; and the source can be used again: a
    [PushBack] on it succeeds. *)
Theorem Vector_move_transfers_buffer s0 other o es value :
  repr (mkState other (heap s0) o) es →
  ∃ s other',
    Vector_move other s0 = Ok other' s ∧
    this s = other ∧ repr s es ∧
    heap s0 ⊆ heap s ∧ size (heap s) = S (size (heap s0)) ∧
    cout s = cout s0 ∧
    repr (mkState other' (heap s) o) [] ∧ Capacity other' = 1 ∧
    blk (m_Data other') ≠ blk (m_Data other) ∧
    ∃ s', PushBack (outside value) (mkState other' (heap s) o) = Ok tt s' ∧
          repr s' [value].
Proof.
  intros Ho. rewrite Vector_move_exact.
  assert (Hfresh : heap s0 !! fresh (dom (heap s0)) = None)
    by apply not_elem_of_dom, is_fresh.
  assert (Hempty : repr (mkState (mkVector (mkPointer (Some (fresh (dom (heap s0)))) 0) 0 1)
                           (<[fresh (dom (heap s0)) := [None]]> (heap s0)) o) []).
  { exists (fresh (dom (heap s0))), [None]. cbn. rewrite lookup_insert_eq.
    unfold SIZE_MAX. done. }
  eexists _, _. split; [done|]. cbn [this heap cout].
  split; [done|]. split; [|split; [by apply insert_subseteq|split;
    [by rewrite map_size_insert_None|split; [done|split; [done|split; [done|split]]]]]].
  - destruct Ho as (bo & rest & Hd & Hn & Hc & Hmax & Hbo). cbn in *.
    exists bo, rest. cbn. rewrite lookup_insert_ne by congruence. done.
  - destruct Ho as (bo & rest & Hd & _ & _ & _ & Hbo). cbn in *.
    rewrite Hd. cbn. congruence.
  - destruct (PushBack_ok _ [] value Hempty) as (s' & Hs' & Hr' & _);
      [cbn; lia|cbn; lia|]. by exists s'.
Qed.

Lemma owns_copy_assign h0 other :
  triple (owns h0 1) (copy_assign other) (fun _ => owns h0 1) (owns h0 1).
Proof.
  intros s Hown. rewrite copy_assign_unfold.
  pose proof (destroy_then s h0 (Vector_copy other) Hown) as Hd.
  pose proof (owns_Vector_destroy h0 s Hown) as Ht.
  unfold Vector_destroy in Ht.
  unfold mbind, M_bind, bind in *.
  destruct (Clear s) as [[] s1|e s1|]; [|done..].
  destruct (Deallocate s1) as [[] s2|e s2|]; [|done..].
  destruct Hd as [Hh _]. by apply (owns_Vector_copy h0 (owns h0 1) other s2).
Qed.

(** X22: copy assignment from another vector replaces the contents by a
    deep copy.  The old buffer is released and a new one allocated, so
    the number of blocks of the heap is the same; the vector then holds
    the other's elements with the other's capacity, in a block that is
    not the other's; and every block but the old buffer, the other's
    among them, is as it was. *)
Theorem copy_assign_replaces_contents s es other o es' :
  repr s es → repr (mkState other (heap s) o) es' →
  blk (m_Data other) ≠ blk (m_Data (this s)) →
  ∃ s', copy_assign other s = Ok tt s' ∧
        repr s' es' ∧
        Capacity (this s') = Capacity other ∧
        repr (mkState other (heap s') o) es' ∧
        blk (m_Data (this s')) ≠ blk (m_Data other) ∧
        size (heap s') = size (heap s) ∧
        ∀ b l, blk (m_Data (this s)) ≠ Some b → heap s !! b = Some l →
               heap s' !! b = Some l.
Proof.
  intros Hr Ho Hne.
  destruct (copy_assign_ok s es other o es' Hr Ho Hne) as (s' & Hs' & Hr' & _ & Hc & Ho').
  destruct (repr_owns s es Hr) as (b & Hd & _ & Hown).
  pose proof (owns_copy_assign _ other s Hown) as Hafter. rewrite Hs' in Hafter.
  destruct Hafter as (Hsub & Hsize & Hapart).
  destruct Hown as (_ & Hsize0 & _).
  exists s'. do 4 (split; [done|]). split; [|split; [lia|]].
  - destruct Ho as (bo & rest & Hdo & _ & _ & _ & Hbo). cbn in *.
    rewrite Hdo in *. rewrite Hd in Hne. cbn in *. intros Heq.
    apply Hapart in Heq. rewrite lookup_delete_ne in Heq by congruence. congruence.
  - intros b' l Hb' Hl. rewrite Hd in Hb'. cbn in Hb'.
    eapply lookup_weaken; [|exact Hsub]. rewrite lookup_delete_ne by congruence. done.
Qed.

(** X23: move assignment from another vector releases the old buffer and
    takes over the other's.  The vector becomes the other field for field
    and holds its elements; the other is left empty with capacity 1 in a
    newly allocated block, so the number of blocks of the heap is the
    same; and every block but the old buffer is as it was. *)
Theorem move_assign_takes_buffer s es other o es' :
  repr s es → repr (mkState other (heap s) o) es' →
  blk (m_Data other) ≠ blk (m_Data (this s)) →
  ∃ s' other',
    move_assign other s = Ok other' s' ∧
    this s' = other ∧ repr s' es' ∧
    repr (mkState other' (heap s') o) [] ∧ Capacity other' = 1 ∧
    blk (m_Data other') ≠ blk (m_Data other) ∧
    size (heap s') = size (heap s) ∧
    ∀ b l, blk (m_Data (this s)) ≠ Some b → heap s !! b = Some l →
           heap s' !! b = Some l.
Proof.
  intros Hr Ho Hne.
  destruct (Clear_Deallocate_frame s es other o es' Hr Ho Hne)
    as (s1 & s2 & Hs1 & Hs2 & Ho2).
  destruct (repr_owns s es Hr) as (b & Hd & _ & Hown).
  pose proof (destroy_then s _ (Vector_move other) Hown) as Hdes.
  rewrite Hs1, Hs2 in Hdes. destruct Hdes as [Hh Heq].
  destruct Hown as (_ & Hsize0 & _).
  destruct (Vector_move_ok s2 other o es' Ho2) as (s3 & other' & Hs3 & Ht & Hr3 & _ & Hc & He).
  pose proof Hs3 as Hex. rewrite Vector_move_exact in Hex.
  injection Hex as Hother Hstate.
  assert (Hfresh : heap s2 !! fresh (dom (heap s2)) = None)
    by apply not_elem_of_dom, is_fresh.
  assert (Hheap : heap s3 = <[fresh (dom (heap s2)) := [None]]> (heap s2))
    by (by rewrite <- Hstate).
  exists s3, other'. rewrite move_assign_unfold, Heq.
  do 5 (split; [done|]). split; [|split].
  - destruct Ho2 as (bo & rest & Hdo & _ & _ & _ & Hbo). cbn in *.
    rewrite <- Hother, Hdo. cbn. congruence.
  - rewrite Hheap, map_size_insert_None by done. rewrite Hh. lia.
  - intros b' l Hb' Hl. rewrite Hd in Hb'. cbn in Hb'.
    rewrite Hheap. eapply lookup_weaken; [|by apply insert_subseteq].
    rewrite Hh, lookup_delete_ne by congruence. done.
Qed.

End Vector.

Arguments State : clear implicits.

(** * Concrete runs

    Vectors of integers; a moved-from integer keeps its value. *)

(** The state before any vector is constructed. *)
Definition start : State Z := mkState (mkVector nullptr 0 0) ∅ [].

(** The vector [[10, 20, 30]] with capacity four. *)
Definition abc : State Z :=
  mkState (mkVector (mkPointer (Some 0%nat) 0) 3 4)
    {[ 0%nat := [Some 10; Some 20; Some 30; None] ]} [].

(** The full vector [[10]] with capacity one. *)
Definition full : State Z :=
  mkState (mkVector (mkPointer (Some 0%nat) 0) 1 1) {[ 0%nat := [Some 10] ]} [].

(** A second vector, [[7, 8]] with capacity two, in a block of its own
    beside the one of [abc]. *)
Definition pair : Vector := mkVector (mkPointer (Some 1%nat) 0) 2 2.

Definition two : State Z :=
  mkState (this abc)
    {[ 0%nat := [Some 10; Some 20; Some 30; None]; 1%nat := [Some 7; Some 8] ]} [].

Lemma repr_abc : repr abc [10; 20; 30].
Proof. exists 0%nat, [None]. vm_compute. repeat split; discriminate. Defined.

Lemma repr_full : repr full [10].
Proof. exists 0%nat, []. vm_compute. repeat split; discriminate. Defined.

Lemma repr_two : repr two [10; 20; 30].
Proof. exists 0%nat, [None]. vm_compute. repeat split; discriminate. Defined.

Lemma repr_pair : repr (mkState pair (heap two) []) [7; 8].
Proof. exists 1%nat, []. vm_compute. repeat split; discriminate. Defined.


(** The example of the specification: push 1 to 5 on a fresh vector, read
    back, pop twice. *)
Example end_to_end :
  ∃ s5 s3,
    (Vector_default;; push_all id [1; 2; 3; 4; 5]) start = Ok tt s5 ∧
    Size (this s5) = 5 ∧ Capacity (this s5) = 8 ∧
    At 4 s5 = Ok (subscript (this s5) 4) s5 ∧
    deref s5 (subscript (this s5) 4) = Some 5 ∧
    At 5 s5 = Throw out_of_range s5 ∧
    (PopBack;; PopBack) s5 = Ok tt s3 ∧
    Size (this s3) = 3 ∧ deref s3 (Back (this s3)) = Some 3.
Proof.
  do 2 eexists. split; [vm_compute; reflexivity|].
  do 5 (split; [vm_compute; reflexivity|]).
  split; [vm_compute; reflexivity|].
  split; vm_compute; reflexivity.
Qed.

(** [it = Begin() + 1; it--;] leaves [it] at distance two from [Begin()]. *)
Example post_dec_from_second :
  let it := Iterator.add (Begin (this abc)) 1 in
  Iterator.diff (fst (Iterator.post_dec it)) (Begin (this abc)) = 2 ∧
  Iterator.diff (Iterator.pre_dec it) (Begin (this abc)) = 0.
Proof. split; reflexivity. Qed.

Lemma smallest_pow2_ge_unique n c c' :
  smallest_pow2_ge n c → smallest_pow2_ge n c' → c = c'.
Proof.
  intros (Hp & Hle & Hmin) (Hp' & Hle' & Hmin').
  apply Z.le_antisymm; [by apply Hmin|by apply Hmin'].
Qed.

Example smallest_pow2_ge_5 : smallest_pow2_ge 5 8.
Proof.
  split; [exists 3; split; [lia|reflexivity]|]. split; [lia|].
  intros c' (k & Hk & ->) Hle.
  destruct (Z.le_gt_cases 3 k) as [H3|H3].
  - change 8 with (2 ^ 3). apply Z.pow_le_mono_r; lia.
  - assert (2 ^ k ≤ 2 ^ 2) by (apply Z.pow_le_mono_r; lia). lia.
Qed.

(** ** Witnesses *)

Lemma At_checked_witness :
  At 1 abc = Ok (mkPointer (Some 0%nat) 1) abc ∧
  deref abc (mkPointer (Some 0%nat) 1) = Some 20 ∧
  At 3 abc = Throw out_of_range abc.
Proof.
  destruct (At_checked abc 1) as (_ & _ & _ & Hok & Helem).
  destruct (At_checked abc 3) as (Hthrow & _).
  destruct (Helem [10; 20; 30] repr_abc) as (x & Hx & Hd);
    [vm_compute; split; [discriminate|reflexivity]|].
  injection Hx as <-.
  split; [apply Hok; reflexivity|]. split; [exact Hd|].
  apply Hthrow. vm_compute. discriminate.
Defined.

Lemma Reallocate_spec_witness :
  Reallocate id 2 abc = Throw invalid_argument abc ∧
  ∃ s', Reallocate id 8 abc = Ok tt s' ∧ repr s' [10; 20; 30] ∧
        Size (this s') = 3 ∧ Capacity (this s') = 8.
Proof.
  split.
  - apply (Reallocate_spec id abc [10; 20; 30] 2 repr_abc); [unfold SIZE_MAX; lia|].
    reflexivity.
  - apply (Reallocate_spec id abc [10; 20; 30] 8 repr_abc); [unfold SIZE_MAX; lia|].
    vm_compute. discriminate.
Defined.

Lemma PushBack_sequence_witness :
  ∃ s, (Vector_default;; push_all id [1; 2; 3; 4; 5]) start = Ok tt s ∧
       Size (this s) = 5 ∧
       deref s (subscript (this s) 4) = Some 5 ∧
       Capacity (this s) = 8.
Proof.
  destruct (PushBack_sequence id start [1; 2; 3; 4; 5]) as (Hruns & _ & Hafter).
  destruct Hruns as [s Hs]; [vm_compute; discriminate|].
  destruct (Hafter s Hs) as (Hsize & Hat & Hcap).
  exists s. split; [exact Hs|]. split; [exact Hsize|].
  split; [exact (proj2 (Hat 4%nat 5 eq_refl))|].
  exact (smallest_pow2_ge_unique 5 _ 8 Hcap smallest_pow2_ge_5).
Defined.


Lemma Erase_spec_witness :
  ∃ s', Erase id (Iterator.add (Begin (this abc)) 1) abc = Ok tt s' ∧
        repr s' [10; 30] ∧ Size (this s') = 2.
Proof.
  destruct (Erase_spec id abc [10; 20; 30] 1 (Iterator.add (Begin (this abc)) 1) repr_abc)
    as (Herase & _).
  - simpl. lia.
  - reflexivity.
  - exact Herase.
Defined.

Lemma PushBack_PopBack_witness :
  (∃ s2, (PushBack id (inside (subscript (this abc) 0));; PopBack) abc = Ok tt s2 ∧
         Size (this s2) = 3 ∧ repr s2 [10; 20; 30] ∧ Capacity (this s2) = 4) ∧
  (∃ s2, (PushBack id (outside 7);; PopBack) full = Ok tt s2 ∧
         Size (this s2) = 1 ∧ repr s2 [10] ∧ Capacity (this s2) = 2).
Proof.
  split.
  - destruct (PushBack_PopBack id abc [10; 20; 30] (inside (subscript (this abc) 0)) 10
                repr_abc)
      as (s1 & s2 & _ & _ & Hs & _ & Hn & Hr & _ & Hc & _).
    + vm_compute. discriminate.
    + left. reflexivity.
    + reflexivity.
    + left. reflexivity.
    + exists s2. split; [exact Hs|]. split; [exact Hn|]. split; [exact Hr|].
      apply Hc. reflexivity.
  - destruct (PushBack_PopBack id full [10] (outside 7) 7 repr_full)
      as (s1 & s2 & _ & _ & Hs & _ & Hn & Hr & _ & _ & Hc).
    + vm_compute. discriminate.
    + right. vm_compute. discriminate.
    + reflexivity.
    + right. simpl. intros H. exact H.
    + exists s2. split; [exact Hs|]. split; [exact Hn|]. split; [exact Hr|].
      apply Hc. reflexivity.
Defined.

Lemma PushBack_own_element_when_full_witness :
  (Vector_default;; PushBack id (outside 10)) start = Ok tt full ∧
  PushBack id (inside (subscript (this full) 0)) full = UB ∧
  PushBack_move id (inside (subscript (this full) 0)) full = UB.
Proof.
  split; [vm_compute; reflexivity|].
  apply (PushBack_own_element_when_full id full [10] (subscript (this full) 0) repr_full).
  - reflexivity.
  - vm_compute. discriminate.
  - reflexivity.
Defined.

Lemma End_minus_Begin_witness :
  Iterator.diff (End (this abc)) (Begin (this abc)) = 3 ∧
  Iterator.eq (Begin (this abc)) (End (this abc)) = false.
Proof.
  destruct (End_minus_Begin (this abc)) as (Hdiff & Heq).
  split; [apply Hdiff; vm_compute; split; discriminate|exact Heq].
Defined.


(** ** Failing inputs *)

(** C2, where the code fails it: [Vector(0)] and [Vector(0, value)] are
    vectors of capacity zero.  Both constructors store [count] as the
    capacity, without the minimum of one that [Vector()] and the moves
    keep, so the invariant [Capacity() >= 1] fails for [count = 0]. *)
Theorem count_zero_has_no_capacity :
  (∃ s, Vector_count 0 start = Ok tt s ∧ Capacity (this s) = 0 ∧ ¬ invariant (this s)) ∧
  (∃ s, Vector_fill 0 7 start = Ok tt s ∧ Capacity (this s) = 0 ∧ ¬ invariant (this s)).
Proof.
  split; eexists; (split; [reflexivity|]); (split; [reflexivity|]);
    intros [H _]; vm_compute in H; by apply H.
Qed.

(** On [Vector(0)] the first [PushBack] constructs past the end of the
    empty block. *)
Example PushBack_after_count_zero :
  (Vector_count 0;; PushBack id (outside 7)) start = UB.
Proof. vm_compute. reflexivity. Qed.

(** On the full vector [[10]] of capacity one, [PushBack] then [PopBack]
    restores the size but leaves capacity two. *)
Lemma PushBack_PopBack_changes_capacity :
  ∃ s2, (PushBack id (outside 7);; PopBack) full = Ok tt s2 ∧
        Size (this s2) = Size (this full) ∧
        Capacity (this full) = 1 ∧ Capacity (this s2) = 2 ∧
        Capacity (this s2) ≠ Capacity (this full).
Proof.
  eexists. split; [vm_compute; reflexivity|].
  vm_compute. repeat split; try reflexivity. discriminate.
Qed.

(** C5, where the code fails it: [v.Insert(v.Begin(), v[2])] on
    [[10, 20, 30]] with capacity four.  The argument is a reference to
    the element [30]; when [Insert] reads it, after the shift, the slot
    it leads to holds [20]: the vector ends as [[20, 10, 20, 30]], not
    [[30, 10, 20, 30]], with either overload.  On the full vector
    [[10]], [v.Insert(v.Begin(), v[0])] reads the argument from the
    buffer that the growth step released: undefined behaviour. *)
Theorem Insert_of_own_element :
  referent abc (inside (subscript (this abc) 2)) = Some 30 ∧
  (∃ s', Insert id (Begin (this abc)) (inside (subscript (this abc) 2)) abc = Ok tt s' ∧
         repr s' [20; 10; 20; 30]) ∧
  (∃ s', Insert_move id (Begin (this abc)) (inside (subscript (this abc) 2)) abc = Ok tt s' ∧
         repr s' [20; 10; 20; 30]) ∧
  Insert id (Begin (this full)) (inside (subscript (this full) 0)) full = UB ∧
  Insert_move id (Begin (this full)) (inside (subscript (this full) 0)) full = UB.
Proof.
  split; [reflexivity|].
  split; [|split; [|split; vm_compute; reflexivity]];
    (eexists; split; [vm_compute; reflexivity|]);
    exists 0%nat, []; vm_compute; repeat split; discriminate.
Qed.

(** ** Further witnesses *)






Lemma PushBack_with_room_is_in_place_witness :
  ∃ s', PushBack id (inside (subscript (this abc) 0)) abc = Ok tt s' ∧
        repr s' [10; 20; 30; 10] ∧
        Begin (this s') = Begin (this abc) ∧
        deref s' (subscript (this abc) 1) = Some 20.
Proof.
  destruct (PushBack_with_room_is_in_place id abc [10; 20; 30]
              (inside (subscript (this abc) 0)) 10 repr_abc)
    as (s' & Hs & Hr & Hb & _ & _ & Hrefs); [reflexivity|reflexivity|].
  exists s'. split; [exact Hs|]. split; [exact Hr|]. split; [exact Hb|].
  exact (Hrefs 1%nat 20 eq_refl).
Defined.

Lemma PushBack_when_full_invalidates_cursors_witness :
  ∃ s', PushBack id (outside 7) full = Ok tt s' ∧
        repr s' [10; 7] ∧
        Capacity (this s') = 2 ∧
        load (Iterator.deref (Begin (this full))) s' = UB.
Proof.
  destruct (PushBack_when_full_invalidates_cursors id full [10] (outside 7) 7 repr_full)
    as (s' & Hs & Hr & Hc & _ & _ & Hub).
  - vm_compute. discriminate.
  - reflexivity.
  - vm_compute. discriminate.
  - reflexivity.
  - simpl. intros H. exact H.
  - exists s'. split; [exact Hs|]. split; [exact Hr|]. split; [exact Hc|exact Hub].
Defined.

Lemma Clear_keeps_storage_witness :
  ∃ s' s'', Clear abc = Ok tt s' ∧
            Size (this s') = 0 ∧
            At 0 s' = Throw out_of_range s' ∧
            push_all id [1; 2] s' = Ok tt s'' ∧
            repr s'' [1; 2] ∧
            Begin (this s'') = Begin (this abc) ∧ Capacity (this s'') = 4.
Proof.
  destruct (Clear_keeps_storage id abc [10; 20; 30] [1; 2] repr_abc)
    as (s' & s'' & Hs & Hn & _ & _ & _ & _ & Hat & Hp & Hr & Hb & Hc);
    [vm_compute; discriminate|].
  exists s', s''. split; [exact Hs|]. split; [exact Hn|].
  split; [apply Hat; lia|]. split; [exact Hp|]. split; [exact Hr|].
  split; [exact Hb|exact Hc].
Defined.

Lemma Front_Back_designate_witness :
  deref abc (Front (this abc)) = Some 10 ∧ deref abc (Back (this abc)) = Some 30.
Proof.
  destruct (Front_Back_designate abc [10; 20; 30] repr_abc) as (_ & _ & _ & Hne & _).
  apply Hne. discriminate.
Defined.




Lemma traversal_visits_elements_witness :
  deref abc (Iterator.deref (Nat.iter 2 Iterator.pre_inc (Begin (this abc)))) = Some 30 ∧
  Iterator.eq (Nat.iter 3 Iterator.pre_inc (Begin (this abc))) (End (this abc)) = true.
Proof.
  destruct (traversal_visits_elements abc [10; 20; 30] repr_abc) as [Hk Hend].
  split; [exact (proj1 (Hk 2%nat 30 eq_refl))|exact Hend].
Defined.

Lemma cursor_order_is_index_order_witness :
  Iterator.lt (Iterator.add (Begin (this abc)) 1) (Iterator.add (Begin (this abc)) 2) = true ∧
  Iterator.diff (Iterator.add (Begin (this abc)) 1) (Iterator.add (Begin (this abc)) 2) = -1.
Proof.
  destruct (cursor_order_is_index_order (this abc) 1 2) as (_ & _ & Hlt & _ & _ & _ & Hdiff).
  split; [exact Hlt|]. apply Hdiff. vm_compute. split; discriminate.
Defined.

Lemma cursor_offsets_round_trip_witness :
  Iterator.sub (Iterator.add (Begin (this abc)) 2) 2 = Begin (this abc) ∧
  Iterator.diff (Iterator.add (Begin (this abc)) 2) (Begin (this abc)) = 2.
Proof.
  destruct (cursor_offsets_round_trip (Begin (this abc)) 2 1) as (Hback & _ & _ & _ & _ & _ & _ & Hdiff).
  split; [exact Hback|]. apply Hdiff. vm_compute. split; discriminate.
Defined.

Lemma PopBack_removes_last_witness :
  ∃ s', PopBack abc = Ok tt s' ∧
        repr s' [10; 20] ∧
        Capacity (this s') = 4 ∧
        cell_at (heap s') (subscript (this s') (Size (this s'))) = Some None.
Proof.
  destruct (PopBack_removes_last abc [10; 20; 30] repr_abc) as [_ Hlast].
  destruct (Hlast [10; 20] 30 eq_refl) as (s' & Hs & Hr & _ & Hc & _ & _ & Hcell).
  exists s'. split; [exact Hs|]. split; [exact Hr|]. split; [exact Hc|exact Hcell].
Defined.

Lemma Erase_leaves_an_element_behind_witness :
  ∃ s', Erase id (Iterator.add (Begin (this abc)) 0) abc = Ok tt s' ∧
        Size (this s') = 2 ∧
        cell_at (heap s') (subscript (this s') (Size (this s'))) = Some (Some 30).
Proof.
  destruct (Erase_leaves_an_element_behind id abc [10; 20; 30] 0 repr_abc)
    as (s' & e & Hs & Hn & _ & _ & He & Hcell); [simpl; lia|].
  injection He as <-.
  exists s'. split; [exact Hs|]. split; [exact Hn|exact Hcell].
Defined.


Lemma Vector_move_transfers_buffer_witness :
  ∃ s other',
    Vector_move (this abc) abc = Ok other' s ∧
    this s = this abc ∧ repr s [10; 20; 30] ∧
    size (heap s) = 2%nat ∧
    Capacity other' = 1 ∧
    ∃ s', PushBack id (outside 7) (mkState other' (heap s) []) = Ok tt s' ∧ repr s' [7].
Proof.
  destruct (Vector_move_transfers_buffer id abc (this abc) [] [10; 20; 30] 7 repr_abc)
    as (s & other' & Hs & Ht & Hr & _ & Hsize & _ & _ & Hc & _ & Hpush).
  exists s, other'. split; [exact Hs|]. split; [exact Ht|]. split; [exact Hr|].
  split; [exact Hsize|]. split; [exact Hc|exact Hpush].
Defined.

Lemma copy_assign_replaces_contents_witness :
  ∃ s', copy_assign pair two = Ok tt s' ∧
        repr s' [7; 8] ∧
        Capacity (this s') = 2 ∧
        repr (mkState pair (heap s') []) [7; 8] ∧
        size (heap s') = size (heap two).
Proof.
  destruct (copy_assign_replaces_contents two [10; 20; 30] pair [] [7; 8] repr_two repr_pair)
    as (s' & Hs & Hr & Hc & Ho & _ & Hsize & _); [vm_compute; discriminate|].
  exists s'. split; [exact Hs|]. split; [exact Hr|]. split; [exact Hc|].
  split; [exact Ho|exact Hsize].
Defined.

Lemma move_assign_takes_buffer_witness :
  ∃ s' other',
    move_assign pair two = Ok other' s' ∧
    this s' = pair ∧ repr s' [7; 8] ∧
    repr (mkState other' (heap s') []) [] ∧
    size (heap s') = size (heap two).
Proof.
  destruct (move_assign_takes_buffer two [10; 20; 30] pair [] [7; 8] repr_two repr_pair)
    as (s' & other' & Hs & Ht & Hr & Ho & _ & _ & Hsize & _); [vm_compute; discriminate|].
  exists s', other'. split; [exact Hs|]. split; [exact Ht|]. split; [exact Hr|].
  split; [exact Ho|exact Hsize].
Defined.
